(** * Configfs keymaps for infrared remotes: drivers/input/ir/ir-configfs.c

    A shallow embedding of the configfs routines that map decoded infrared
    signals [(protocol, device, command)] to key codes, and the properties
    of the translation registry proved over it.

    The C file manipulates three kinds of kernel objects: [struct keymap]
    (one per keymap directory), [struct remote] (one per remote directory,
    pointing to a [struct input_dev]) and the input devices themselves.
    The configfs tree is modelled as nested lists in list order
    ([cg_children]); a pointer to a remote is its position in
    [su_children], a pointer to a keymap is the position of its remote and
    its own position in that remote's [cg_children].  Input devices live in
    a finite map indexed by their address, next to the set of devices that
    the input core has registered.  Calls that report events are recorded
    in a chronological trace.

    [remote_show] and the description attributes only print fixed text or
    the sysfs path of the device; no property below depends on them and
    they are not modelled. *)

From Stdlib Require Import ZArith Ascii String Lia.
From Stdlib Require Import DecimalString DecimalPos DecimalN.
From stdpp Require Import base option list gmap strings relations.

Local Open Scope Z_scope.

(** ** Constants of the C environment *)

(** [int] is 32 bits wide on every Linux target. *)
Definition INT_MAX : Z := 2147483647.

(** Error numbers of include/asm-generic/errno-base.h. *)
Definition ENOMEM : Z := 12.
Definition EINVAL : Z := 22.
Definition ERANGE : Z := 34.
Definition EEXIST : Z := 17.

(** Event type and bus type of include/linux/input.h. *)
Definition EV_KEY : Z := 1.
Definition BUS_VIRTUAL : Z := 6.

(** ** Data model *)

(** The four attributes of a keymap directory; [item_show] and [item_store]
    compare the attribute pointer against these. *)
Inductive keymap_attr : Type :=
| item_protocol
| item_device
| item_command
| item_keycode.

#[global] Instance keymap_attr_eq_dec : EqDecision keymap_attr.
Proof. solve_decision. Defined.

(** [struct keymap]; [item_name] is the name held by the embedded
    [struct config_item]. *)
Record keymap : Type := Keymap {
  item_name : string;
  protocol : Z;
  device : Z;
  command : Z;
  keycode : Z
}.

(** The fields of [struct input_dev] that the file touches.  [keybit] is the
    key capability bitmap, read as one non-negative number whose bit [n] is
    key code [n]. *)
Record input_dev : Type := InputDev {
  id_bustype : Z;
  dev_name : string;
  phys : string;
  evbit0 : Z;
  keybit : Z
}.

(** [struct remote]: the config group with its children, and the address of
    its input device. *)
Record remote : Type := Remote {
  group_name : string;
  input : nat;
  cg_children : list keymap
}.

(** Event codes of the IR event type (ir.h). *)
Inductive ir_code : Type :=
| IR_PROTOCOL
| IR_DEVICE
| IR_COMMAND.

(** What the file hands to the input core and to the subsystem mutex, in
    the order of the calls. *)
Inductive event : Type :=
| EvIr (dev : nat) (code : ir_code) (value : Z)
| EvKey (dev : nat) (code : Z) (value : Z)
| EvSync (dev : nat)
| EvMutexLock
| EvMutexUnlock.

(** The kernel state the file reads and writes. *)
Record kernel : Type := Kernel {
  su_children : list remote;
  input_devs : gmap nat input_dev;
  registered : gset nat;
  kmem : Z;
  events : list event;
  klog : list string
}.

(** Outcome of a function returning a pointer or [ERR_PTR(err)]. *)
Inductive ptr_result (A : Type) : Type :=
| ERR_PTR (err : Z)
| PTR (a : A).
Arguments ERR_PTR {A} err.
Arguments PTR {A} a.

(** What the allocators and the input core answer during [make_remote]:
    whether [kzalloc] succeeds, the address [input_allocate_device] returns
    (or NULL), and the return value of [input_register_device]. *)
Record host_env : Type := HostEnv {
  env_kzalloc : bool;
  env_input : option nat;
  env_register : Z
}.

(** ** Field updates *)

Definition set_protocol (v : Z) (k : keymap) : keymap :=
  Keymap (item_name k) v (device k) (command k) (keycode k).
Definition set_device (v : Z) (k : keymap) : keymap :=
  Keymap (item_name k) (protocol k) v (command k) (keycode k).
Definition set_command (v : Z) (k : keymap) : keymap :=
  Keymap (item_name k) (protocol k) (device k) v (keycode k).
Definition set_keycode (v : Z) (k : keymap) : keymap :=
  Keymap (item_name k) (protocol k) (device k) (command k) v.

Definition set_attr (attr : keymap_attr) (v : Z) (k : keymap) : keymap :=
  match attr with
  | item_protocol => set_protocol v k
  | item_device => set_device v k
  | item_command => set_command v k
  | item_keycode => set_keycode v k
  end.

Definition set_keybit (v : Z) (d : input_dev) : input_dev :=
  InputDev (id_bustype d) (dev_name d) (phys d) (evbit0 d) v.

Definition set_cg_children (l : list keymap) (r : remote) : remote :=
  Remote (group_name r) (input r) l.

Definition with_su_children (l : list remote) (k : kernel) : kernel :=
  Kernel l (input_devs k) (registered k) (kmem k) (events k) (klog k).
Definition with_input_devs (m : gmap nat input_dev) (k : kernel) : kernel :=
  Kernel (su_children k) m (registered k) (kmem k) (events k) (klog k).
Definition with_registered (s : gset nat) (k : kernel) : kernel :=
  Kernel (su_children k) (input_devs k) s (kmem k) (events k) (klog k).
Definition with_kmem (n : Z) (k : kernel) : kernel :=
  Kernel (su_children k) (input_devs k) (registered k) n (events k) (klog k).
Definition with_events (l : list event) (k : kernel) : kernel :=
  Kernel (su_children k) (input_devs k) (registered k) (kmem k) l (klog k).
Definition with_klog (l : list string) (k : kernel) : kernel :=
  Kernel (su_children k) (input_devs k) (registered k) (kmem k) (events k) l.

(** The registry after the keymap at [(gi, ki)] of the remote [g] became
    [km'], and the device table after the key bitmap of [dev] became [bits]. *)
Definition put_keymap (gi ki : nat) (g : remote) (km' : keymap) (k : kernel) : kernel :=
  with_su_children
    (<[gi := set_cg_children (<[ki := km']> (cg_children g)) g]> (su_children k)) k.

Definition put_keybit (dev : nat) (d : input_dev) (bits : Z) (k : kernel) : kernel :=
  with_input_devs (<[dev := set_keybit bits d]> (input_devs k)) k.

(** The state before any remote exists. *)
Definition kernel_init : kernel := Kernel [] ∅ ∅ 0 [] [].

(** ** The monad of kernel code

    A computation reads and writes the kernel state; [None] is a
    dereference of a pointer to no object. *)

Definition M (A : Type) : Type := kernel → option (A * kernel).

Definition ret {A : Type} (a : A) : M A := λ k, Some (a, k).

Definition bind {A B : Type} (m : M A) (f : A → M B) : M B :=
  λ k, match m k with
       | Some (a, k') => f a k'
       | None => None
       end.

Definition gets {A : Type} (f : kernel → A) : M A := λ k, Some (f k, k).
Definition modify (f : kernel → kernel) : M unit := λ k, Some (tt, f k).
Definition fault {A : Type} : M A := λ _, None.

Declare Scope kernel_scope.
Delimit Scope kernel_scope with kernel.
Bind Scope kernel_scope with M.
Notation "'let*' x ':=' m 'in' f" := (bind m (λ x, f))
  (at level 10, x name, m at level 100, f at level 200) : kernel_scope.
Notation "m1 '>>' m2" := (bind m1 (λ _, m2))
  (at level 100, m2 at level 200, right associativity) : kernel_scope.
Local Open Scope kernel_scope.

(** [list_for_each_entry(x, head, ci_entry) body]. *)
Fixpoint list_for_each_entry {A : Type} (head : list A) (body : A → M unit) : M unit :=
  match head with
  | [] => ret tt
  | x :: rest => body x >> list_for_each_entry rest body
  end.

(** ** Primitives of the kernel used by the file *)

Definition emit (e : event) : M unit :=
  modify (λ k, with_events (events k ++ [e]) k).

Definition input_report_ir (dev : nat) (code : ir_code) (value : Z) : M unit :=
  emit (EvIr dev code value).
Definition input_report_key (dev : nat) (code : Z) (value : Z) : M unit :=
  emit (EvKey dev code value).
Definition input_sync (dev : nat) : M unit := emit (EvSync dev).
Definition mutex_lock : M unit := emit EvMutexLock.
Definition mutex_unlock : M unit := emit EvMutexUnlock.

Definition printk (msg : string) : M unit :=
  modify (λ k, with_klog (klog k ++ [msg]) k).

(** [kzalloc] either fails or hands out one more zeroed object; [kfree]
    gives one back. *)
Definition kzalloc (ok : bool) : M bool :=
  if ok then modify (λ k, with_kmem (kmem k + 1) k) >> ret true else ret false.
Definition kfree : M unit := modify (λ k, with_kmem (kmem k - 1) k).

(** Reading through a pointer to a remote or to a keymap. *)
Definition read_remote (gi : nat) : M remote :=
  λ k, match su_children k !! gi with
       | Some g => Some (g, k)
       | None => None
       end.

Definition read_keymap (gi ki : nat) : M keymap :=
  let* g := read_remote gi in
  match cg_children g !! ki with
  | Some km => ret km
  | None => fault
  end.

(** Writing one field of the keymap behind a pointer. *)
Definition write_keymap (gi ki : nat) (f : keymap → keymap) : M unit :=
  let* g := read_remote gi in
  match cg_children g !! ki with
  | Some km =>
      modify (λ k, with_su_children
        (<[gi := set_cg_children (<[ki := f km]> (cg_children g)) g]> (su_children k)) k)
  | None => fault
  end.

(** Writing fields of the input device behind a pointer. *)
Definition write_input (dev : nat) (f : input_dev → input_dev) : M unit :=
  λ k, match input_devs k !! dev with
       | Some d => Some (tt, with_input_devs (<[dev := f d]> (input_devs k)) k)
       | None => None
       end.

(** [set_bit(nr, dev->keybit)] and [clear_bit(nr, dev->keybit)]. *)
Definition set_bit (nr : Z) (dev : nat) : M unit :=
  write_input dev (λ d, set_keybit (Z.setbit (keybit d) nr) d).
Definition clear_bit (nr : Z) (dev : nat) : M unit :=
  write_input dev (λ d, set_keybit (Z.clearbit (keybit d) nr) d).

(** Modelled from the spec: the virtual input endpoint of include/linux/input.h
    and drivers/input/input.c, which is not under src/.  The spec lists
    [allocate], [register], [unregister] and [free] as separate capabilities:
    allocation creates a zeroed device, registration makes it known to the
    host input system or fails with an error code, freeing gives the device
    object back and does not touch the registration. *)
Definition input_allocate_device (r : option nat) : M (option nat) :=
  match r with
  | Some h =>
      modify (λ k, with_input_devs
        (<[h := InputDev 0 EmptyString EmptyString 0 0]> (input_devs k)) k)
      >> ret (Some h)
  | None => ret None
  end.

(** Modelled from the spec: [register] of the input endpoint, not under src/.
    The host input system answers [r]; on 0 the device is registered. *)
Definition input_register_device (dev : nat) (r : Z) : M Z :=
  if r =? 0
  then modify (λ k, with_registered ({[dev]} ∪ registered k) k) >> ret 0
  else ret r.

(** Modelled from the spec: [free] of the input endpoint, not under src/.  The
    device object is given back; the registration is a separate capability
    and is not touched. *)
Definition input_free_device (dev : nat) : M unit :=
  modify (λ k, with_input_devs (delete dev (input_devs k)) k).

(** Modelled from the spec: [unregister] of the input endpoint, not under
    src/, the inverse of a registration.  No function of the file calls it. *)
Definition input_unregister_device (dev : nat) : M unit :=
  modify (λ k, with_registered (registered k ∖ {[dev]}) k).

(** ** Text of attribute files *)

(** [*p] on a NUL-terminated string: the terminator when nothing is left. *)
Definition deref (p : string) : ascii :=
  match p with
  | EmptyString => Ascii.zero
  | String c _ => c
  end.

Definition isdigit (c : ascii) : bool :=
  ((48 <=? N_of_ascii c) && (N_of_ascii c <=? 57))%N.

Definition digit_value (c : ascii) : Z := Z.of_N (N_of_ascii c) - 48.

(** [sprintf] with the format of [item_show]: the decimal digits of [v], a
    minus sign first when it is negative; [sprintf_d_nl] adds the newline. *)
Definition sprintf_d (v : Z) : string :=
  match v with
  | Z0 => "0"
  | Zpos p => NilEmpty.string_of_uint (Pos.to_uint p)
  | Zneg p => String "-" (NilEmpty.string_of_uint (Pos.to_uint p))
  end.

Definition newline : string := String "010" EmptyString.

(** The two messages that the release functions print. *)
Definition msg_keymap_release : string := ("keymap release" ++ newline)%string.
Definition msg_remote_release : string := ("remote_release" ++ newline)%string.

Definition sprintf_d_nl (v : Z) : string := (sprintf_d v ++ newline)%string.

Definition strlen (s : string) : Z := Z.of_nat (String.length s).

Section IrConfigfs.

(** [KEY_MAX] of include/linux/input.h and the width of [unsigned long] on
    the target are not fixed by the file. *)
Variable KEY_MAX : Z.
Variable BITS_PER_LONG : Z.

(** [BIT_MASK(nr)] is [1UL << (nr % BITS_PER_LONG)]. *)
Definition BIT_MASK (nr : Z) : Z := Z.shiftl 1 (nr mod BITS_PER_LONG).

(** Modelled from the spec: [simple_strtoul] of lib/vsprintf.c, which is not
    under src/, called with base 10.  It parses a non-negative decimal
    integer: the leading run of decimal digits is accumulated in an
    [unsigned long], which wraps around at [2 ^ BITS_PER_LONG], and the end
    pointer is left on the first character that is not a digit.  No digit
    at all gives 0 with the end pointer on the first character. *)
Fixpoint strtoul_loop (result : Z) (cp : string) : Z * string :=
  match cp with
  | String c rest =>
      if isdigit c
      then strtoul_loop ((result * 10 + digit_value c) mod 2 ^ BITS_PER_LONG) rest
      else (result, cp)
  | EmptyString => (result, cp)
  end.

Definition simple_strtoul (cp : string) : Z * string := strtoul_loop 0 cp.

(** ** The operations of a keymap directory *)

Definition attr_value (attr : keymap_attr) (km : keymap) : Z :=
  match attr with
  | item_protocol => protocol km
  | item_device => device km
  | item_command => command km
  | item_keycode => keycode km
  end.

(** [item_show]: the page written and the length returned. *)
Definition item_show (gi ki : nat) (attr : keymap_attr) : M (string * Z) :=
  let* km := read_keymap gi ki in
  let page := sprintf_d_nl (attr_value attr km) in
  ret (page, strlen page).

(** The test after the number: the character under the end pointer is neither
    the terminator nor a newline.  The end pointer that [simple_strtoul]
    stores is never NULL. *)
Definition trailing_garbage (p : string) : bool :=
  negb (Ascii.eqb (deref p) Ascii.zero) && negb (Ascii.eqb (deref p) "010").

(** The assignment at the end of [item_store].  Only a keycode below
    [KEY_MAX] is stored, and its bit is set on the input device of the
    parent remote first. *)
Definition store_field (gi ki : nat) (attr : keymap_attr) (tmp : Z) : M unit :=
  match attr with
  | item_protocol => write_keymap gi ki (set_protocol tmp)
  | item_device => write_keymap gi ki (set_device tmp)
  | item_command => write_keymap gi ki (set_command tmp)
  | item_keycode =>
      if tmp <? KEY_MAX
      then let* rem := read_remote gi in
           set_bit tmp (input rem) >>
           write_keymap gi ki (set_keycode tmp)
      else ret tt
  end.

(** [item_store]: the value returned is [count] or a negative error number. *)
Definition item_store (gi ki : nat) (attr : keymap_attr) (page : string) (count : Z)
  : M Z :=
  let '(tmp, p) := simple_strtoul page in
  if trailing_garbage p then ret (- EINVAL)
  else if INT_MAX <? tmp then ret (- ERANGE)
  else store_field gi ki attr tmp >> ret count.

(** [keymap_release]. *)
Definition keymap_release (gi ki : nat) : M unit :=
  let* km := read_keymap gi ki in
  let* rem := read_remote gi in
  printk msg_keymap_release >>
  clear_bit (keycode km) (input rem) >>
  kfree.

(** [make_keymap]: a zeroed keymap carrying the name of the new directory. *)
Definition make_keymap (name : string) (kz : bool) : M (ptr_result keymap) :=
  let* ok := kzalloc kz in
  if ok then ret (PTR (Keymap name 0 0 0 0))
  else ret (ERR_PTR (- ENOMEM)).

(** ** The operations of a remote directory *)

(** [remote_release]. *)
Definition remote_release (gi : nat) : M unit :=
  let* rem := read_remote gi in
  printk msg_remote_release >>
  input_free_device (input rem) >>
  kfree.

(** [make_remote]; the two labels [free_input] and [free_mem] are the tails
    of the two failing branches. *)
Definition make_remote (name : string) (env : host_env) : M (ptr_result remote) :=
  let* ok := kzalloc (env_kzalloc env) in
  if ok then
    let* inp := input_allocate_device (env_input env) in
    match inp with
    | None => kfree >> ret (ERR_PTR (- ENOMEM))
    | Some h =>
        write_input h (λ d,
          InputDev BUS_VIRTUAL name "remotes" (BIT_MASK EV_KEY) (keybit d)) >>
        let* r := input_register_device h (env_register env) in
        if r =? 0
        then ret (PTR (Remote name h []))
        else input_free_device h >> kfree >> ret (ERR_PTR r)
    end
  else ret (ERR_PTR (- ENOMEM)).

(** ** Translation of a decoded signal *)

Definition tuple_matches (protocol' device' command' : Z) (km : keymap) : bool :=
  (protocol km =? protocol') && (device km =? device') && (command km =? command').

(** The body of the inner loop of [input_ir_translate]: the comparison of one
    keymap of the remote [g] with the signal, and the report on a match. *)
Definition report_match (protocol' device' command' : Z) (g : remote) (km : keymap)
  : M unit :=
  if tuple_matches protocol' device' command' km
  then input_report_key (input g) (keycode km) 1 >>
       input_sync (input g)
  else ret tt.

(** [input_ir_translate]. *)
Definition input_ir_translate (dev : nat) (protocol' device' command' : Z) : M unit :=
  input_report_ir dev IR_PROTOCOL protocol' >>
  input_report_ir dev IR_DEVICE device' >>
  input_report_ir dev IR_COMMAND command' >>
  input_sync dev >>
  mutex_lock >>
  (let* children := gets su_children in
   list_for_each_entry children (λ g,
     list_for_each_entry (cg_children g)
       (report_match protocol' device' command' g))) >>
  mutex_unlock.

(** ** The directory operations of configfs

    fs/configfs/dir.c, which calls [make_remote], [make_keymap],
    [keymap_release] and [remote_release] on mkdir and rmdir, is not under
    src/; the registry operations follow the specification. *)

(** Modelled from the spec: the insertion of a new group into the registry
    (configfs, not under src/), at the end of the list. *)
Definition link_group (g : remote) : M nat :=
  let* children := gets su_children in
  modify (with_su_children (children ++ [g])) >> ret (length children).

(** Modelled from the spec: the removal of a group from the registry
    (configfs, not under src/). *)
Definition unlink_group (gi : nat) : M unit :=
  modify (λ k, with_su_children (delete gi (su_children k)) k).

(** Modelled from the spec: the insertion of a new entry into its group
    (configfs, not under src/), at the end of the list. *)
Definition link_obj (gi : nat) (km : keymap) : M nat :=
  let* g := read_remote gi in
  modify (λ k, with_su_children
    (<[gi := set_cg_children (cg_children g ++ [km]) g]> (su_children k)) k) >>
  ret (length (cg_children g)).

(** Modelled from the spec: the removal of an entry from its group (configfs,
    not under src/). *)
Definition unlink_obj (gi ki : nat) : M unit :=
  let* g := read_remote gi in
  modify (λ k, with_su_children
    (<[gi := set_cg_children (delete ki (cg_children g)) g]> (su_children k)) k).

(** Modelled from the spec: [create_group] (mkdir under the subsystem, configfs,
    not under src/) fails with a duplicate-name error when the name is
    present; otherwise it builds the remote with [make_remote], inserts it and
    returns its handle. *)
Definition create_group (name : string) (env : host_env) : M (ptr_result nat) :=
  let* children := gets su_children in
  if existsb (λ g, String.eqb (group_name g) name) children
  then ret (ERR_PTR (- EEXIST))
  else
    let* r := make_remote name env in
    match r with
    | ERR_PTR e => ret (ERR_PTR e)
    | PTR g => let* gi := link_group g in ret (PTR gi)
    end.

(** Modelled from the spec: [create_entry] (mkdir under a remote, configfs, not
    under src/) fails with a duplicate-name error when the group has an
    entry of that name; otherwise it builds the entry with [make_keymap] and
    inserts it. *)
Definition create_entry (gi : nat) (name : string) (kz : bool) : M (ptr_result nat) :=
  let* g := read_remote gi in
  if existsb (λ km, String.eqb (item_name km) name) (cg_children g)
  then ret (ERR_PTR (- EEXIST))
  else
    let* r := make_keymap name kz in
    match r with
    | ERR_PTR e => ret (ERR_PTR e)
    | PTR km => let* ki := link_obj gi km in ret (PTR ki)
    end.

(** Modelled from the spec: [remove_entry] (rmdir of a keymap, configfs, not
    under src/) releases the entry with [keymap_release], then deletes it. *)
Definition remove_entry (gi ki : nat) : M unit :=
  keymap_release gi ki >> unlink_obj gi ki.

(** Modelled from the spec: the cascade of a group removal over the [n]
    entries of the group (not under src/), first entry first. *)
Fixpoint remove_entries (n : nat) (gi : nat) : M unit :=
  match n with
  | O => ret tt
  | S n' => remove_entry gi 0 >> remove_entries n' gi
  end.

(** Modelled from the spec: [remove_group] (rmdir of a remote, configfs, not
    under src/) releases every contained entry, then tears the group down
    with [remote_release] and removes it from the registry. *)
Definition remove_group (gi : nat) : M unit :=
  let* g := read_remote gi in
  remove_entries (length (cg_children g)) gi >>
  remote_release gi >>
  unlink_group gi.

(** ** What a scan of the registry reports

    The key events that one remote, and the whole list of remotes,
    contribute for a signal: one key-down and one sync per matching
    keymap, in list order. *)

Definition key_events (protocol' device' command' : Z) (g : remote) : list event :=
  flat_map (λ km,
    if tuple_matches protocol' device' command' km
    then [EvKey (input g) (keycode km) 1; EvSync (input g)]
    else []) (cg_children g).

Definition scan_events (protocol' device' command' : Z) (children : list remote)
  : list event :=
  flat_map (key_events protocol' device' command') children.

Definition ir_events (dev : nat) (protocol' device' command' : Z) : list event :=
  [EvIr dev IR_PROTOCOL protocol'; EvIr dev IR_DEVICE device';
   EvIr dev IR_COMMAND command'; EvSync dev].

Definition is_key_event (e : event) : bool :=
  match e with
  | EvKey _ _ _ => true
  | _ => false
  end.

(** The key-down events of the matching keymaps of the registry. *)
Definition matching_keys (protocol' device' command' : Z) (children : list remote)
  : list event :=
  flat_map (λ g,
    map (λ km, EvKey (input g) (keycode km) 1)
        (List.filter (tuple_matches protocol' device' command') (cg_children g)))
    children.

End IrConfigfs.

(** ** States of the registry

    The keymap behind a pointer, if there is one. *)
Definition get_keymap (k : kernel) (gi ki : nat) : option keymap :=
  match su_children k !! gi with
  | Some g => cg_children g !! ki
  | None => None
  end.

(** What [item_store] lets into a keymap: every field holds a value of
    [0 .. INT_MAX], and the keycode is 0, as [kzalloc] left it, or below
    [KEY_MAX]. *)
Definition keymap_in_range (KEY_MAX : Z) (km : keymap) : Prop :=
  0 <= protocol km <= INT_MAX ∧
  0 <= device km <= INT_MAX ∧
  0 <= command km <= INT_MAX ∧
  0 <= keycode km <= INT_MAX ∧
  (keycode km = 0 ∨ keycode km < KEY_MAX).

Definition registry_in_range (KEY_MAX : Z) (k : kernel) : Prop :=
  ∀ g km, g ∈ su_children k → km ∈ cg_children g → keymap_in_range KEY_MAX km.

(** Every bit of every key bitmap is the bit of a key code below [KEY_MAX]. *)
Definition caps_in_range (KEY_MAX : Z) (k : kernel) : Prop :=
  ∀ h d n, input_devs k !! h = Some d → Z.testbit (keybit d) n = true →
           0 <= n < KEY_MAX.

(** A property of the state that a computation keeps whenever it returns. *)
Definition preserves {A : Type} (P : kernel → Prop) (m : M A) : Prop :=
  ∀ k a k', P k → m k = Some (a, k') → P k'.

(** What a computation can return. *)
Definition returns {A : Type} (Q : A → Prop) (m : M A) : Prop :=
  ∀ k a k', m k = Some (a, k') → Q a.

(** One call into the file: the functions of the file themselves, and the
    directory operations that configfs builds from them. *)
Inductive ir_step (KEY_MAX BITS_PER_LONG : Z) : kernel → kernel → Prop :=
| step_item_show gi ki attr r k k' :
    item_show gi ki attr k = Some (r, k') →
    ir_step KEY_MAX BITS_PER_LONG k k'
| step_item_store gi ki attr page count r k k' :
    item_store KEY_MAX BITS_PER_LONG gi ki attr page count k = Some (r, k') →
    ir_step KEY_MAX BITS_PER_LONG k k'
| step_keymap_release gi ki r k k' :
    keymap_release gi ki k = Some (r, k') →
    ir_step KEY_MAX BITS_PER_LONG k k'
| step_make_keymap name kz r k k' :
    make_keymap name kz k = Some (r, k') →
    ir_step KEY_MAX BITS_PER_LONG k k'
| step_remote_release gi r k k' :
    remote_release gi k = Some (r, k') →
    ir_step KEY_MAX BITS_PER_LONG k k'
| step_make_remote name env r k k' :
    make_remote BITS_PER_LONG name env k = Some (r, k') →
    ir_step KEY_MAX BITS_PER_LONG k k'
| step_input_ir_translate dev protocol' device' command' r k k' :
    input_ir_translate dev protocol' device' command' k = Some (r, k') →
    ir_step KEY_MAX BITS_PER_LONG k k'
| step_create_group name env r k k' :
    create_group BITS_PER_LONG name env k = Some (r, k') →
    ir_step KEY_MAX BITS_PER_LONG k k'
| step_create_entry gi name kz r k k' :
    create_entry gi name kz k = Some (r, k') →
    ir_step KEY_MAX BITS_PER_LONG k k'
| step_remove_entry gi ki r k k' :
    remove_entry gi ki k = Some (r, k') →
    ir_step KEY_MAX BITS_PER_LONG k k'
| step_remove_group gi r k k' :
    remove_group gi k = Some (r, k') →
    ir_step KEY_MAX BITS_PER_LONG k k'.

(** ** A frame condition

    A computation keeps the registrations when it leaves the set of devices
    registered with the input core as it found it. *)
Definition keeps_registered {A : Type} (m : M A) : Prop :=
  ∀ k a k', m k = Some (a, k') → registered k' = registered k.

(** ** States and constants of the examples *)

(** [KEY_MAX] as include/linux/input.h has it since 2.6.28, and the width of
    [unsigned long] on the 32-bit PowerPC of the MPC5200. *)
Definition key_max : Z := 0x2ff.
Definition bits_per_long : Z := 32.

(** The answers of a host on which every allocation and the registration
    succeed, the input device being placed at address [h]. *)
Definition host_ok (h : nat) : host_env := HostEnv true (Some h) 0.

(** Two remotes that both map the signal (1, 2, 3), to key 30 and to key 31. *)
Definition two_remotes : kernel :=
  Kernel
    [Remote "G1" 1 [Keymap "k" 1 2 3 30]; Remote "G2" 2 [Keymap "k" 1 2 3 31]]
    (<[1%nat := InputDev BUS_VIRTUAL "G1" "remotes" 2 (Z.setbit 0 30)]>
       (<[2%nat := InputDev BUS_VIRTUAL "G2" "remotes" 2 (Z.setbit 0 31)]> ∅))
    ({[1%nat]} ∪ ({[2%nat]} ∪ ∅)) 4 [] [].

(** One remote with one keymap for the signal (1, 2, 3) and key 30. *)
Definition tv_remote : kernel :=
  Kernel
    [Remote "tv" 5 [Keymap "power" 1 2 3 30]]
    (<[5%nat := InputDev BUS_VIRTUAL "tv" "remotes" 2 (Z.setbit 0 30)]> ∅)
    ({[5%nat]} ∪ ∅) 2 [] [].

(** One remote with one keymap whose protocol, device and command were
    written, and whose keycode never was. *)
Definition make_unwritten : M Z :=
  create_group bits_per_long "tv" (host_ok 5) >>
  create_entry 0 "power" true >>
  item_store key_max bits_per_long 0 0 item_protocol "1" 1 >>
  item_store key_max bits_per_long 0 0 item_device "2" 1 >>
  item_store key_max bits_per_long 0 0 item_command "3" 1.

(** One remote with two keymaps that were both given key 30. *)
Definition make_shared_key : M Z :=
  create_group bits_per_long "tv" (host_ok 5) >>
  create_entry 0 "power" true >>
  create_entry 0 "standby" true >>
  item_store key_max bits_per_long 0 0 item_keycode "30" 2 >>
  item_store key_max bits_per_long 0 1 item_keycode "30" 2.

(** One remote with one keymap that was given key 30. *)
Definition make_tv_remote : M Z :=
  make_unwritten >>
  item_store key_max bits_per_long 0 0 item_keycode "30" 2.

(** What is left of [tv_remote] after its group was removed. *)
Definition tv_removed : kernel :=
  Kernel [] ∅ ({[5%nat]} ∪ ∅) 0 [] [msg_keymap_release; msg_remote_release].

(** * Properties *)

(** ** The state record *)

Lemma with_events_twice (l l' : list event) (k : kernel) :
  with_events l (with_events l' k) = with_events l k.
Proof. by destruct k. Qed.

Lemma with_events_same (k : kernel) : with_events (events k) k = k.
Proof. by destruct k. Qed.

Lemma emit_run (e : event) (k : kernel) :
  emit e k = Some (tt, with_events (events k ++ [e]) k).
Proof. reflexivity. Qed.

(** ** The scan of [input_ir_translate] *)

Section Translate.

Variables (protocol' device' command' : Z).

Lemma inner_loop_run (g : remote) (l : list keymap) (k : kernel) :
  list_for_each_entry l (report_match protocol' device' command' g) k =
  Some (tt, with_events
    (events k ++ key_events protocol' device' command' (set_cg_children l g)) k).
Proof.
  revert k. induction l as [|km l IH]; intros k.
  - cbn. by rewrite app_nil_r, with_events_same.
  - cbn [list_for_each_entry]. unfold bind at 1. unfold report_match at 1.
    unfold key_events in *. cbn [cg_children set_cg_children flat_map] in *.
    destruct (tuple_matches protocol' device' command' km).
    + cbn. rewrite IH. cbn. rewrite with_events_twice.
      by rewrite <- !app_assoc.
    + cbn. by rewrite IH.
Qed.

Lemma outer_loop_run (children : list remote) (k : kernel) :
  list_for_each_entry children
    (λ g, list_for_each_entry (cg_children g)
       (report_match protocol' device' command' g)) k =
  Some (tt, with_events
    (events k ++ scan_events protocol' device' command' children) k).
Proof.
  revert k. induction children as [|g children IH]; intros k.
  - cbn. by rewrite app_nil_r, with_events_same.
  - cbn [list_for_each_entry]. unfold bind at 1.
    rewrite inner_loop_run. rewrite IH. cbn [events with_events].
    rewrite with_events_twice. unfold scan_events. cbn [flat_map].
    replace (set_cg_children (cg_children g) g) with g by (by destruct g).
    by rewrite <- app_assoc.
Qed.

(** The whole effect of a translation: the IR event on the source device,
    then, under the mutex, the key events of the scan. *)
Lemma translate_run (dev : nat) (k : kernel) :
  input_ir_translate dev protocol' device' command' k =
  Some (tt, with_events
    (events k ++ ir_events dev protocol' device' command' ++ [EvMutexLock] ++
     scan_events protocol' device' command' (su_children k) ++ [EvMutexUnlock]) k).
Proof.
  unfold input_ir_translate, input_report_ir, input_sync, mutex_lock,
    mutex_unlock, gets.
  unfold bind at 1 2 3 4 5 6. rewrite !emit_run. unfold bind at 1.
  cbn [events with_events su_children].
  rewrite outer_loop_run. cbn [events with_events].
  rewrite emit_run. cbn [events with_events]. rewrite !with_events_twice.
  unfold ir_events. by rewrite <- !app_assoc.
Qed.

End Translate.

(** ** Where the key events of a scan come from *)

Section Scan.

Variables (protocol' device' command' : Z).

Lemma tuple_matches_true (km : keymap) :
  tuple_matches protocol' device' command' km = true ↔
  protocol km = protocol' ∧ device km = device' ∧ command km = command'.
Proof.
  unfold tuple_matches. rewrite !andb_true_iff, !Z.eqb_eq. tauto.
Qed.

(** A matching keymap of a remote contributes its key-down and the sync
    right after it. *)
Lemma key_events_fires (g : remote) (ki : nat) (km : keymap) :
  cg_children g !! ki = Some km →
  tuple_matches protocol' device' command' km = true →
  ∃ pre post, key_events protocol' device' command' g =
    pre ++ [EvKey (input g) (keycode km) 1; EvSync (input g)] ++ post.
Proof.
  intros Hki Hm. unfold key_events.
  rewrite <- (take_drop_middle _ _ _ Hki).
  rewrite flat_map_app. cbn [flat_map]. rewrite Hm.
  eexists _, _. reflexivity.
Qed.

Lemma scan_events_fires (children : list remote) (gi ki : nat)
    (g : remote) (km : keymap) :
  children !! gi = Some g →
  cg_children g !! ki = Some km →
  tuple_matches protocol' device' command' km = true →
  ∃ pre post, scan_events protocol' device' command' children =
    pre ++ [EvKey (input g) (keycode km) 1; EvSync (input g)] ++ post.
Proof.
  intros Hgi Hki Hm. unfold scan_events.
  destruct (key_events_fires g ki km Hki Hm) as (pre & post & E).
  rewrite <- (take_drop_middle _ _ _ Hgi).
  rewrite flat_map_app. cbn [flat_map]. rewrite E.
  exists (flat_map (key_events protocol' device' command') (take gi children) ++ pre).
  eexists. rewrite <- !app_assoc. reflexivity.
Qed.

(** The key-down events of a scan are those of the matching keymaps, one
    each, in list order. *)
Lemma key_events_keys (g : remote) :
  List.filter is_key_event (key_events protocol' device' command' g) =
  map (λ km, EvKey (input g) (keycode km) 1)
      (List.filter (tuple_matches protocol' device' command') (cg_children g)).
Proof.
  unfold key_events. induction (cg_children g) as [|km l IH]; [done|].
  cbn [flat_map List.filter].
  destruct (tuple_matches protocol' device' command' km); cbn; by rewrite IH.
Qed.

Lemma scan_events_keys (children : list remote) :
  List.filter is_key_event (scan_events protocol' device' command' children) =
  matching_keys protocol' device' command' children.
Proof.
  unfold scan_events, matching_keys.
  induction children as [|g children IH]; [done|].
  cbn [flat_map]. by rewrite List.filter_app, key_events_keys, IH.
Qed.

Lemma matching_keys_none (children : list remote) :
  (∀ g km, g ∈ children → km ∈ cg_children g →
     ¬ (protocol km = protocol' ∧ device km = device' ∧ command km = command')) →
  matching_keys protocol' device' command' children = [].
Proof.
  unfold matching_keys. induction children as [|g children IH]; intros H; [done|].
  cbn [flat_map]. rewrite IH.
  - rewrite app_nil_r.
    assert (∀ km, km ∈ cg_children g →
              tuple_matches protocol' device' command' km = false) as Hg.
    { intros km Hkm. destruct (tuple_matches _ _ _ km) eqn:E; [|done].
      apply tuple_matches_true in E. destruct (H g km); [left|done|done]. }
    induction (cg_children g) as [|km l IHl]; [done|].
    cbn [List.filter]. rewrite (Hg km) by left.
    apply IHl. intros km' Hkm'. apply Hg. by right.
  - intros g' km Hg'. apply H. by right.
Qed.

Lemma filter_nil_none (l : list event) (e : event) :
  List.filter is_key_event l = [] → e ∈ l → is_key_event e = false.
Proof.
  intros Hnil He. destruct (is_key_event e) eqn:E; [|done].
  assert (In e (List.filter is_key_event l)) as Hin.
  { apply List.filter_In. split; [by apply list_elem_of_In|done]. }
  rewrite Hnil in Hin. destruct Hin.
Qed.

End Scan.

(** ** Translation *)

(** C10.  Every call of [input_ir_translate] first reports the IR-format
    event on the source device: the protocol, the device and the command,
    then a sync.  This comes before the mutex is taken and before any key
    event, whatever the registry holds and whether or not a keymap matches. *)
Theorem input_ir_translate_ir_event_first
    (dev : nat) (protocol' device' command' : Z) (k : kernel) :
  ∃ k', input_ir_translate dev protocol' device' command' k = Some (tt, k') ∧
    events k' =
      events k ++
      [EvIr dev IR_PROTOCOL protocol'; EvIr dev IR_DEVICE device';
       EvIr dev IR_COMMAND command'; EvSync dev] ++
      [EvMutexLock] ++
      scan_events protocol' device' command' (su_children k) ++
      [EvMutexUnlock].
Proof.
  eexists. split; [apply translate_run|]. reflexivity.
Qed.

(** C1.  A call of [input_ir_translate] emits, for every registered remote
    and every keymap in it whose protocol, device and command equal the
    signal, a key-down event for that keymap's keycode followed by a sync on
    that remote's input device.  The scan has no early exit: the key-down
    events emitted are exactly those of all matching keymaps of all remotes,
    one each.  A signal that matches no keymap causes no key event at all.
    The registry itself is left as it was. *)
Theorem input_ir_translate_broadcast
    (dev : nat) (protocol' device' command' : Z) (k : kernel) :
  ∃ emitted,
    input_ir_translate dev protocol' device' command' k =
      Some (tt, with_events (events k ++ emitted) k) ∧
    (∀ gi ki g km,
       su_children k !! gi = Some g →
       cg_children g !! ki = Some km →
       protocol km = protocol' ∧ device km = device' ∧ command km = command' →
       ∃ pre post,
         emitted = pre ++ [EvKey (input g) (keycode km) 1; EvSync (input g)] ++ post) ∧
    List.filter is_key_event emitted =
      matching_keys protocol' device' command' (su_children k) ∧
    ((∀ g km, g ∈ su_children k → km ∈ cg_children g →
        ¬ (protocol km = protocol' ∧ device km = device' ∧ command km = command')) →
     ∀ e, e ∈ emitted → is_key_event e = false).
Proof.
  eexists. split; [apply translate_run|].
  assert (List.filter is_key_event
            (ir_events dev protocol' device' command' ++ [EvMutexLock] ++
             scan_events protocol' device' command' (su_children k) ++
             [EvMutexUnlock]) =
          matching_keys protocol' device' command' (su_children k)) as Hkeys.
  { cbn. rewrite List.filter_app. cbn. by rewrite app_nil_r, scan_events_keys. }
  split; [|split].
  - intros gi ki g km Hgi Hki Hm. apply tuple_matches_true in Hm.
    destruct (scan_events_fires _ _ _ _ gi ki g km Hgi Hki Hm) as (pre & post & E).
    rewrite E.
    exists (ir_events dev protocol' device' command' ++ [EvMutexLock] ++ pre).
    exists (post ++ [EvMutexUnlock]).
    by rewrite <- !app_assoc.
  - exact Hkeys.
  - intros Hnone e He. eapply filter_nil_none; [|exact He].
    rewrite Hkeys. by apply matching_keys_none.
Qed.

(** ** Decimal text *)

Lemma append_String (c : ascii) (s r : string) :
  (String c s ++ r)%string = String c (s ++ r)%string.
Proof. reflexivity. Qed.

Lemma isdigit_newline : isdigit (deref newline) = false.
Proof. reflexivity. Qed.

Lemma isdigit_end : isdigit (deref EmptyString) = false.
Proof. reflexivity. Qed.

Section Parse.

Variable BITS_PER_LONG : Z.

Lemma strtoul_loop_stop (acc : Z) (cp : string) :
  isdigit (deref cp) = false → strtoul_loop BITS_PER_LONG acc cp = (acc, cp).
Proof.
  destruct cp as [|c rest]; [done|]. cbn. by intros ->.
Qed.

Lemma strtoul_loop_nonneg (cp : string) (acc : Z) :
  0 <= acc → 0 <= (strtoul_loop BITS_PER_LONG acc cp).1.
Proof.
  revert acc. induction cp as [|c rest IH]; intros acc Hacc; [done|].
  cbn. destruct (isdigit c) eqn:Hd; [|done].
  apply IH.
  assert (0 <= digit_value c) as Hv.
  { unfold isdigit in Hd. unfold digit_value.
    apply andb_true_iff in Hd as [Hd _]. apply N.leb_le in Hd. lia. }
  destruct (Z.eq_dec (2 ^ BITS_PER_LONG) 0) as [E|E].
  - rewrite E, Z.mod_0_r. lia.
  - assert (0 <= 2 ^ BITS_PER_LONG) by (apply Z.pow_nonneg; lia).
    apply Z.mod_pos_bound. lia.
Qed.

Lemma simple_strtoul_nonneg (cp : string) :
  0 <= (simple_strtoul BITS_PER_LONG cp).1.
Proof. by apply strtoul_loop_nonneg. Qed.

Lemma of_uint_acc_ge (d : Decimal.uint) (acc : positive) :
  (acc <= Pos.of_uint_acc d acc)%positive.
Proof.
  revert acc. induction d; intros acc; cbn [Pos.of_uint_acc];
    [lia | etransitivity; [|apply IHd]; lia ..].
Qed.

(** One turn of the loop on a digit that is known. *)
Ltac step_digit :=
  rewrite append_String; cbn [strtoul_loop];
  match goal with
  | |- context [isdigit ?c] => change (isdigit c) with true; cbn match
  end;
  match goal with
  | |- context [digit_value ?c] =>
      let v := eval vm_compute in (digit_value c) in
      change (digit_value c) with v
  end.

(** The loop reads the digits the way [Pos.of_uint_acc] does, as long as the
    number fits in an [unsigned long]. *)
Lemma strtoul_loop_uint_acc (d : Decimal.uint) (acc : positive) (rest : string) :
  Z.pos (Pos.of_uint_acc d acc) < 2 ^ BITS_PER_LONG →
  strtoul_loop BITS_PER_LONG (Z.pos acc) (NilEmpty.string_of_uint d ++ rest) =
  strtoul_loop BITS_PER_LONG (Z.pos (Pos.of_uint_acc d acc)) rest.
Proof.
  revert acc.
  induction d; intros acc Hlt; [done|..];
    cbn [NilEmpty.string_of_uint Pos.of_uint_acc] in *; step_digit;
    match goal with
    | H : Z.pos (Pos.of_uint_acc _ ?a) < _ |- _ =>
        pose proof (of_uint_acc_ge d a);
        rewrite <- (IHd a Hlt); f_equal;
        rewrite Z.mod_small by lia; lia
    end.
Qed.

Lemma strtoul_loop_uint (d : Decimal.uint) (rest : string) :
  Z.of_N (Pos.of_uint d) < 2 ^ BITS_PER_LONG →
  strtoul_loop BITS_PER_LONG 0 (NilEmpty.string_of_uint d ++ rest) =
  strtoul_loop BITS_PER_LONG (Z.of_N (Pos.of_uint d)) rest.
Proof.
  induction d; intros Hlt; [done|..];
    cbn [NilEmpty.string_of_uint Pos.of_uint Z.of_N] in *; step_digit.
  1: { rewrite Z.mod_small by lia. by apply IHd. }
  all: match goal with
    | H : Z.pos (Pos.of_uint_acc _ ?a) < _ |- _ =>
        pose proof (of_uint_acc_ge d a);
        rewrite <- (strtoul_loop_uint_acc d a rest Hlt); f_equal;
        rewrite Z.mod_small by lia; lia
    end.
Qed.

(** Reading back what [sprintf] printed. *)
Lemma simple_strtoul_sprintf_d (n : Z) (rest : string) :
  0 <= n < 2 ^ BITS_PER_LONG →
  isdigit (deref rest) = false →
  simple_strtoul BITS_PER_LONG (sprintf_d n ++ rest) = (n, rest).
Proof.
  intros [Hn Hlt] Hrest. unfold simple_strtoul.
  destruct n as [|p|p]; [|idtac|lia].
  - change (sprintf_d 0) with (NilEmpty.string_of_uint (Decimal.D0 Decimal.Nil)).
    rewrite strtoul_loop_uint by (cbn; lia). by apply strtoul_loop_stop.
  - cbn [sprintf_d].
    rewrite strtoul_loop_uint; rewrite DecimalPos.Unsigned.of_to; [|done].
    by apply strtoul_loop_stop.
Qed.

End Parse.

(** ** Pointers that point to something *)

Lemma read_remote_run (gi : nat) (g : remote) (k : kernel) :
  su_children k !! gi = Some g → read_remote gi k = Some (g, k).
Proof. unfold read_remote. by intros ->. Qed.

Lemma read_keymap_run (gi ki : nat) (g : remote) (km : keymap) (k : kernel) :
  su_children k !! gi = Some g →
  cg_children g !! ki = Some km →
  read_keymap gi ki k = Some (km, k).
Proof.
  intros Hg Hkm. unfold read_keymap, bind.
  rewrite (read_remote_run _ _ _ Hg). by rewrite Hkm.
Qed.

Lemma write_keymap_run (gi ki : nat) (f : keymap → keymap)
    (g : remote) (km : keymap) (k : kernel) :
  su_children k !! gi = Some g →
  cg_children g !! ki = Some km →
  write_keymap gi ki f k = Some (tt, put_keymap gi ki g (f km) k).
Proof.
  intros Hg Hkm. unfold write_keymap, bind.
  rewrite (read_remote_run _ _ _ Hg). by rewrite Hkm.
Qed.

Lemma write_input_run (dev : nat) (f : input_dev → input_dev)
    (d : input_dev) (k : kernel) :
  input_devs k !! dev = Some d →
  write_input dev f k = Some (tt, with_input_devs (<[dev := f d]> (input_devs k)) k).
Proof. unfold write_input. by intros ->. Qed.

Lemma put_keymap_lookup (gi ki : nat) (g : remote) (km km' : keymap) (k : kernel) :
  su_children k !! gi = Some g →
  cg_children g !! ki = Some km →
  ∃ g', su_children (put_keymap gi ki g km' k) !! gi = Some g' ∧
        input g' = input g ∧ group_name g' = group_name g ∧
        cg_children g' = <[ki := km']> (cg_children g) ∧
        cg_children g' !! ki = Some km'.
Proof.
  intros Hg Hkm. eexists. split.
  - unfold put_keymap. cbn. apply list_lookup_insert_eq.
    by eapply lookup_lt_Some.
  - cbn. repeat split. apply list_lookup_insert_eq. by eapply lookup_lt_Some.
Qed.

(** ** Attribute writes *)

Section Store.

Variables (KEY_MAX BITS_PER_LONG : Z).

Lemma trailing_garbage_true (p : string) :
  trailing_garbage p = true ↔ deref p ≠ Ascii.zero ∧ deref p ≠ "010"%char.
Proof.
  unfold trailing_garbage.
  rewrite andb_true_iff, !negb_true_iff, !Ascii.eqb_neq. tauto.
Qed.

Lemma trailing_garbage_false (p : string) :
  trailing_garbage p = false ↔ deref p = Ascii.zero ∨ deref p = "010"%char.
Proof.
  unfold trailing_garbage.
  rewrite andb_false_iff, !negb_false_iff, !Ascii.eqb_eq. tauto.
Qed.

Lemma store_field_plain (gi ki : nat) (attr : keymap_attr) (tmp : Z)
    (g : remote) (km : keymap) (k : kernel) :
  attr ≠ item_keycode →
  su_children k !! gi = Some g →
  cg_children g !! ki = Some km →
  store_field KEY_MAX gi ki attr tmp k =
  Some (tt, put_keymap gi ki g (set_attr attr tmp km) k).
Proof.
  intros Hattr Hg Hkm.
  destruct attr; [| | |done]; cbn [store_field set_attr];
    by apply write_keymap_run.
Qed.

Lemma store_field_keycode (gi ki : nat) (tmp : Z)
    (g : remote) (km : keymap) (d : input_dev) (k : kernel) :
  tmp < KEY_MAX →
  su_children k !! gi = Some g →
  cg_children g !! ki = Some km →
  input_devs k !! input g = Some d →
  store_field KEY_MAX gi ki item_keycode tmp k =
  Some (tt, put_keymap gi ki g (set_keycode tmp km)
              (put_keybit (input g) d (Z.setbit (keybit d) tmp) k)).
Proof.
  intros Hlt Hg Hkm Hd. cbn [store_field].
  apply Z.ltb_lt in Hlt as ->. unfold bind at 1.
  rewrite (read_remote_run _ _ _ Hg). unfold bind, set_bit.
  rewrite (write_input_run _ _ _ _ Hd).
  by rewrite (write_keymap_run gi ki _ g km).
Qed.

Lemma store_field_keycode_ignored (gi ki : nat) (tmp : Z) (k : kernel) :
  KEY_MAX <= tmp →
  store_field KEY_MAX gi ki item_keycode tmp k = Some (tt, k).
Proof.
  intros Hge. cbn [store_field]. by apply Z.ltb_ge in Hge as ->.
Qed.

(** The three ways out of [item_store]. *)
Lemma item_store_garbage (gi ki : nat) (attr : keymap_attr) (page : string)
    (count : Z) (k : kernel) :
  trailing_garbage (simple_strtoul BITS_PER_LONG page).2 = true →
  item_store KEY_MAX BITS_PER_LONG gi ki attr page count k = Some (- EINVAL, k).
Proof.
  unfold item_store. destruct (simple_strtoul BITS_PER_LONG page) as [tmp p].
  cbn. by intros ->.
Qed.

Lemma item_store_too_big (gi ki : nat) (attr : keymap_attr) (page : string)
    (count : Z) (k : kernel) :
  trailing_garbage (simple_strtoul BITS_PER_LONG page).2 = false →
  INT_MAX < (simple_strtoul BITS_PER_LONG page).1 →
  item_store KEY_MAX BITS_PER_LONG gi ki attr page count k = Some (- ERANGE, k).
Proof.
  unfold item_store. destruct (simple_strtoul BITS_PER_LONG page) as [tmp p].
  cbn. intros -> Hbig. by apply Z.ltb_lt in Hbig as ->.
Qed.

Lemma item_store_accepted (gi ki : nat) (attr : keymap_attr) (page : string)
    (count : Z) (k : kernel) :
  trailing_garbage (simple_strtoul BITS_PER_LONG page).2 = false →
  (simple_strtoul BITS_PER_LONG page).1 <= INT_MAX →
  item_store KEY_MAX BITS_PER_LONG gi ki attr page count k =
  (store_field KEY_MAX gi ki attr (simple_strtoul BITS_PER_LONG page).1 >>
   ret count) k.
Proof.
  unfold item_store. destruct (simple_strtoul BITS_PER_LONG page) as [tmp p].
  cbn. intros -> Hok. by apply Z.ltb_ge in Hok as ->.
Qed.

Lemma then_ret_value {A : Type} (m : M A) (count r : Z) (k : kernel) :
  fst <$> (m >> ret count) k = Some r → r = count.
Proof.
  unfold bind, ret. destruct (m k) as [[a k']|]; cbn; congruence.
Qed.

End Store.

(** ** Claims about attribute writes *)

Section StoreClaims.

Variables (KEY_MAX BITS_PER_LONG : Z).

(** C7 (amended).  A write to an integer attribute reads the leading run of
    decimal digits (none at all reads as 0; the value wraps around at the
    width of [unsigned long]) and looks at the character [c] that follows.
    The write fails with [-EINVAL] (InvalidFormat), changing nothing,
    exactly when [c] is neither the end of the text nor a newline.  It
    fails with [-ERANGE] (OutOfRange), changing nothing, exactly when [c] is
    the end of the text or a newline and the value read exceeds [INT_MAX].
    In every other case the assignment of the field runs with the value
    read, and the write returns [count]. *)
Theorem item_store_errors (gi ki : nat) (attr : keymap_attr) (page : string)
    (count : Z) (k : kernel) :
  0 <= count →
  let tmp := (simple_strtoul BITS_PER_LONG page).1 in
  let c := deref (simple_strtoul BITS_PER_LONG page).2 in
  let result := item_store KEY_MAX BITS_PER_LONG gi ki attr page count k in
  (fst <$> result = Some (- EINVAL) ↔ c ≠ Ascii.zero ∧ c ≠ "010"%char) ∧
  (fst <$> result = Some (- ERANGE) ↔
     (c = Ascii.zero ∨ c = "010"%char) ∧ INT_MAX < tmp) ∧
  (c ≠ Ascii.zero ∧ c ≠ "010"%char → result = Some (- EINVAL, k)) ∧
  ((c = Ascii.zero ∨ c = "010"%char) ∧ INT_MAX < tmp →
     result = Some (- ERANGE, k)) ∧
  ((c = Ascii.zero ∨ c = "010"%char) ∧ tmp <= INT_MAX →
     result = (store_field KEY_MAX gi ki attr tmp >> ret count) k).
Proof.
  intros Hcount tmp c result.
  assert (c ≠ Ascii.zero ∧ c ≠ "010"%char → result = Some (- EINVAL, k)) as H1.
  { intros Hc. apply item_store_garbage. by apply trailing_garbage_true. }
  assert ((c = Ascii.zero ∨ c = "010"%char) ∧ INT_MAX < tmp →
          result = Some (- ERANGE, k)) as H2.
  { intros [Hc Hbig]. apply item_store_too_big; [|done].
    by apply trailing_garbage_false. }
  assert ((c = Ascii.zero ∨ c = "010"%char) ∧ tmp <= INT_MAX →
          result = (store_field KEY_MAX gi ki attr tmp >> ret count) k) as H3.
  { intros [Hc Hok]. apply item_store_accepted; [|done].
    by apply trailing_garbage_false. }
  assert (- EINVAL ≠ - ERANGE) as Hne by done.
  assert (- EINVAL < 0 ∧ - ERANGE < 0) as [Hneg1 Hneg2] by done.
  destruct (trailing_garbage (simple_strtoul BITS_PER_LONG page).2) eqn:Hg.
  - apply trailing_garbage_true in Hg. fold c in Hg.
    split_and!; try done.
    + split; [done|]. intros _. by rewrite H1.
    + split; [|tauto]. rewrite H1 by done. cbn. intros [= E]; lia.
  - apply trailing_garbage_false in Hg. fold c in Hg.
    destruct (Z_lt_le_dec INT_MAX tmp) as [Hbig|Hok].
    + split_and!; try done.
      * split; [|tauto]. rewrite H2 by done. cbn. intros [= E]; lia.
      * split; [done|]. intros _. by rewrite H2.
    + split_and!; try done.
      * split; [|tauto]. rewrite H3 by done.
        intros E%then_ret_value. lia.
      * split; [|lia]. rewrite H3 by done.
        intros E%then_ret_value. lia.
Qed.

(** C3 (amended).  A write to the keycode attribute whose text is accepted
    and whose value [v] is at least [KEY_MAX] leaves the whole state as it
    was: the keycode of the entry is unchanged and no bit is reserved.  The
    write reports success (it returns [count]) when [v] is at most
    [INT_MAX], and fails with [-ERANGE] (OutOfRange) only when [v] exceeds
    [INT_MAX]. *)
Theorem item_store_keycode_out_of_range (gi ki : nat) (page : string)
    (count : Z) (k : kernel) :
  let v := (simple_strtoul BITS_PER_LONG page).1 in
  let c := deref (simple_strtoul BITS_PER_LONG page).2 in
  c = Ascii.zero ∨ c = "010"%char →
  KEY_MAX <= v →
  item_store KEY_MAX BITS_PER_LONG gi ki item_keycode page count k =
  Some (if INT_MAX <? v then - ERANGE else count, k).
Proof.
  intros v c Hc Hv. apply trailing_garbage_false in Hc.
  destruct (INT_MAX <? v) eqn:E.
  - apply item_store_too_big; [done|]. by apply Z.ltb_lt.
  - rewrite item_store_accepted; [|done|by apply Z.ltb_ge].
    unfold bind. fold v. by rewrite store_field_keycode_ignored.
Qed.

Lemma attr_value_set_attr (attr : keymap_attr) (v : Z) (km : keymap) :
  attr_value attr (set_attr attr v km) = v.
Proof. by destruct attr. Qed.

Lemma item_show_run (gi ki : nat) (attr : keymap_attr)
    (g : remote) (km : keymap) (k : kernel) :
  su_children k !! gi = Some g →
  cg_children g !! ki = Some km →
  item_show gi ki attr k =
  Some ((sprintf_d_nl (attr_value attr km),
         strlen (sprintf_d_nl (attr_value attr km))), k).
Proof.
  intros Hg Hkm. unfold item_show, bind.
  by rewrite (read_keymap_run _ _ _ _ _ Hg Hkm).
Qed.

(** An accepted write of a value that the field takes. *)
Lemma item_store_stores (gi ki : nat) (attr : keymap_attr) (page : string)
    (count : Z) (g : remote) (km : keymap) (d : input_dev) (k : kernel) :
  let v := (simple_strtoul BITS_PER_LONG page).1 in
  su_children k !! gi = Some g →
  cg_children g !! ki = Some km →
  input_devs k !! input g = Some d →
  trailing_garbage (simple_strtoul BITS_PER_LONG page).2 = false →
  v <= INT_MAX →
  (attr = item_keycode → v < KEY_MAX) →
  item_store KEY_MAX BITS_PER_LONG gi ki attr page count k =
  Some (count,
        put_keymap gi ki g (set_attr attr v km)
          (match attr with
           | item_keycode => put_keybit (input g) d (Z.setbit (keybit d) v) k
           | _ => k
           end)).
Proof.
  intros v Hg Hkm Hd Hc Hv Hkey.
  rewrite item_store_accepted by done. unfold bind. fold v.
  destruct (decide (attr = item_keycode)) as [->|Hattr].
  - by rewrite (store_field_keycode _ gi ki v g km d) by auto.
  - rewrite (store_field_plain _ gi ki attr v g km) by auto.
    by destruct attr.
Qed.

(** C6 (amended).  For each of the four attributes and every [n] with
    [0 <= n <= INT_MAX], and [n < KEY_MAX] for the keycode, writing the
    decimal digits of [n] without sign and without leading zeros, with or
    without one newline after them, is accepted, and reading the attribute
    back yields those digits followed by a newline. *)
Theorem item_store_show_roundtrip (gi ki : nat) (attr : keymap_attr) (n : Z)
    (nl : string) (count : Z) (g : remote) (km : keymap) (d : input_dev)
    (k : kernel) :
  su_children k !! gi = Some g →
  cg_children g !! ki = Some km →
  input_devs k !! input g = Some d →
  31 <= BITS_PER_LONG →
  0 <= n <= INT_MAX →
  (attr = item_keycode → n < KEY_MAX) →
  nl = EmptyString ∨ nl = newline →
  ∃ k1,
    item_store KEY_MAX BITS_PER_LONG gi ki attr (sprintf_d n ++ nl) count k =
      Some (count, k1) ∧
    item_show gi ki attr k1 =
      Some ((sprintf_d n ++ newline, strlen (sprintf_d n ++ newline))%string, k1).
Proof.
  intros Hg Hkm Hd Hbits Hn Hkey Hnl.
  assert (simple_strtoul BITS_PER_LONG (sprintf_d n ++ nl) = (n, nl)) as Hparse.
  { apply simple_strtoul_sprintf_d.
    - assert (2 ^ 31 <= 2 ^ BITS_PER_LONG) by (apply Z.pow_le_mono_r; lia).
      unfold INT_MAX in Hn. lia.
    - by destruct Hnl as [->| ->]. }
  eexists. split.
  - rewrite (item_store_stores gi ki attr _ count g km d); rewrite ?Hparse;
      cbn [fst snd]; try done; [|lia].
    by destruct Hnl as [->| ->].
  - destruct (put_keymap_lookup gi ki g km (set_attr attr n km)
                (match attr with
                 | item_keycode => put_keybit (input g) d (Z.setbit (keybit d) n) k
                 | _ => k
                 end)) as (g' & Hg' & _ & _ & _ & Hkm'); [by destruct attr|done|].
    rewrite (item_show_run gi ki attr g' _ _ Hg' Hkm').
    by rewrite attr_value_set_attr.
Qed.

End StoreClaims.

(** ** Releasing a keymap *)

Lemma keymap_release_run (gi ki : nat) (g : remote) (km : keymap)
    (d : input_dev) (k : kernel) :
  su_children k !! gi = Some g →
  cg_children g !! ki = Some km →
  input_devs k !! input g = Some d →
  keymap_release gi ki k =
  Some (tt, with_kmem (kmem k - 1)
              (put_keybit (input g) d (Z.clearbit (keybit d) (keycode km))
                 (with_klog (klog k ++ [msg_keymap_release]) k))).
Proof.
  intros Hg Hkm Hd. unfold keymap_release. unfold bind at 1.
  rewrite (read_keymap_run _ _ _ _ _ Hg Hkm). unfold bind at 1.
  rewrite (read_remote_run _ _ _ Hg). unfold bind, printk, modify, clear_bit.
  by rewrite (write_input_run _ _ d).
Qed.

Lemma remove_entry_run (gi ki : nat) (g : remote) (km : keymap)
    (d : input_dev) (k : kernel) :
  su_children k !! gi = Some g →
  cg_children g !! ki = Some km →
  input_devs k !! input g = Some d →
  remove_entry gi ki k =
  Some (tt, with_su_children
              (<[gi := set_cg_children (delete ki (cg_children g)) g]> (su_children k))
              (with_kmem (kmem k - 1)
                 (put_keybit (input g) d (Z.clearbit (keybit d) (keycode km))
                    (with_klog (klog k ++ [msg_keymap_release]) k)))).
Proof.
  intros Hg Hkm Hd. unfold remove_entry, bind.
  rewrite (keymap_release_run _ _ _ _ _ _ Hg Hkm Hd).
  unfold unlink_obj, bind. by rewrite (read_remote_run gi g).
Qed.

Section KeyBits.

Variables (KEY_MAX BITS_PER_LONG : Z).

(** A write to another attribute than the keycode never touches a device. *)
Lemma item_store_plain_input_devs (gi ki : nat) (attr : keymap_attr)
    (page : string) (count r : Z) (k k' : kernel) :
  attr ≠ item_keycode →
  item_store KEY_MAX BITS_PER_LONG gi ki attr page count k = Some (r, k') →
  input_devs k' = input_devs k.
Proof.
  intros Hattr. unfold item_store.
  destruct (simple_strtoul BITS_PER_LONG page) as [tmp p].
  destruct (trailing_garbage p); [by intros [= _ <-]|].
  destruct (INT_MAX <? tmp); [by intros [= _ <-]|].
  unfold bind.
  destruct (store_field KEY_MAX gi ki attr tmp k) as [[[] k1]|] eqn:E; [|done].
  intros [= _ <-].
  destruct attr; [| | |done]; cbn [store_field] in E;
    unfold write_keymap, bind, read_remote in E;
    destruct (su_children k !! gi) as [g|]; try done;
    destruct (cg_children g !! ki); try done;
    by injection E as <-.
Qed.

(** C2 (amended).  The key bitmap of a remote's input device is a plain bit
    set, written by the two operations that the keymap owns.  Right after
    an accepted write of a keycode [v < KEY_MAX] to an entry, the entry's
    keycode is [v] and bit [v] is in the bitmap of its remote.  After
    [remove_entry] of an entry whose keycode is [c], the entry is gone, bit
    [c] is absent from the bitmap, whether or not another entry of the same
    remote still has keycode [c], and every other bit is as before.  Writes
    to the protocol, device and command attributes leave every bitmap
    unchanged. *)
Theorem keycode_bit_reserved_and_released (gi ki : nat) (g : remote)
    (km : keymap) (d : input_dev) (k : kernel) :
  su_children k !! gi = Some g →
  cg_children g !! ki = Some km →
  input_devs k !! input g = Some d →
  (∀ page count,
     let v := (simple_strtoul BITS_PER_LONG page).1 in
     let c := deref (simple_strtoul BITS_PER_LONG page).2 in
     c = Ascii.zero ∨ c = "010"%char →
     v <= INT_MAX →
     v < KEY_MAX →
     ∃ k' g' km' d',
       item_store KEY_MAX BITS_PER_LONG gi ki item_keycode page count k =
         Some (count, k') ∧
       su_children k' !! gi = Some g' ∧ input g' = input g ∧
       cg_children g' !! ki = Some km' ∧ keycode km' = v ∧
       input_devs k' !! input g = Some d' ∧
       Z.testbit (keybit d') v = true) ∧
  (∃ k' g' d',
     remove_entry gi ki k = Some (tt, k') ∧
     su_children k' !! gi = Some g' ∧ input g' = input g ∧
     cg_children g' = delete ki (cg_children g) ∧
     input_devs k' !! input g = Some d' ∧
     Z.testbit (keybit d') (keycode km) = false ∧
     ∀ n, n ≠ keycode km → Z.testbit (keybit d') n = Z.testbit (keybit d) n) ∧
  (∀ attr page count r k',
     attr ≠ item_keycode →
     item_store KEY_MAX BITS_PER_LONG gi ki attr page count k = Some (r, k') →
     input_devs k' = input_devs k).
Proof.
  intros Hg Hkm Hd. split_and!.
  - intros page count v c Hc Hv Hkey.
    apply trailing_garbage_false in Hc.
    pose proof (simple_strtoul_nonneg BITS_PER_LONG page) as Hpos. fold v in Hpos.
    destruct (put_keymap_lookup gi ki g km (set_keycode v km)
                (put_keybit (input g) d (Z.setbit (keybit d) v) k))
      as (g' & Hg' & Hin & _ & _ & Hkm'); [done..|].
    exists (put_keymap gi ki g (set_keycode v km)
              (put_keybit (input g) d (Z.setbit (keybit d) v) k)).
    exists g', (set_keycode v km), (set_keybit (Z.setbit (keybit d) v) d).
    split_and!; try done.
    + by rewrite (item_store_stores _ _ gi ki item_keycode page count g km d).
    + cbn. apply lookup_insert_eq.
    + cbn. rewrite Z.setbit_eqb by done. by rewrite Z.eqb_refl.
  - eexists _, _, _. split; [by apply (remove_entry_run gi ki g km d)|].
    cbn. split_and!.
    + apply list_lookup_insert_eq. by eapply lookup_lt_Some.
    + done.
    + done.
    + apply lookup_insert_eq.
    + cbn. rewrite Z.clearbit_eqb, Z.eqb_refl. apply andb_false_r.
    + intros n Hn. cbn. by apply Z.clearbit_neq.
  - intros attr page count r k' Hattr. by apply item_store_plain_input_devs.
Qed.

End KeyBits.

(** ** Creating directories *)

Lemma kernel_restored (k : kernel) (h : nat) (d d' : input_dev) :
  input_devs k !! h = None →
  with_kmem (kmem k + 1 - 1)
    (with_input_devs (delete h (<[h := d']> (<[h := d]> (input_devs k)))) k) = k.
Proof.
  intros Hfresh. destruct k as [ch devs reg mem ev lg]. cbn in *.
  unfold with_kmem, with_input_devs. cbn. f_equal.
  - rewrite delete_insert_eq, delete_insert_eq. by apply delete_id.
  - lia.
Qed.

Lemma make_remote_register_fails (BITS_PER_LONG : Z) (name : string) (h : nat)
    (r : Z) (k : kernel) :
  input_devs k !! h = None →
  r ≠ 0 →
  make_remote BITS_PER_LONG name (HostEnv true (Some h) r) k = Some (ERR_PTR r, k).
Proof.
  intros Hfresh Hr. apply Z.eqb_neq in Hr.
  unfold make_remote. cbn [env_kzalloc env_input env_register].
  unfold kzalloc, input_allocate_device, input_register_device,
    input_free_device, kfree, write_input, bind, modify, ret.
  cbn [input_devs with_kmem with_input_devs].
  rewrite lookup_insert_eq. rewrite !Hr.
  cbn [kmem input_devs with_kmem with_input_devs keybit].
  do 2 f_equal.
  etransitivity; [|exact (kernel_restored k h (InputDev 0 EmptyString EmptyString 0 0)
    (InputDev BUS_VIRTUAL name "remotes" (BIT_MASK BITS_PER_LONG EV_KEY) 0) Hfresh)].
  by destruct k.
Qed.

(** C8.  When the input core refuses the registration during the creation
    of a remote, [make_remote] returns the error of the registration, and
    the state is exactly the one before the call: the input device that was
    allocated is freed, the memory of the remote is freed, nothing is
    registered, and the list of remotes of the registry is unchanged.  The
    same holds for the whole [create_group] of a name that is not taken. *)
Theorem create_group_registration_failure (BITS_PER_LONG : Z) (name : string)
    (h : nat) (r : Z) (k : kernel) :
  input_devs k !! h = None →
  r ≠ 0 →
  make_remote BITS_PER_LONG name (HostEnv true (Some h) r) k = Some (ERR_PTR r, k) ∧
  (existsb (λ g, String.eqb (group_name g) name) (su_children k) = false →
   create_group BITS_PER_LONG name (HostEnv true (Some h) r) k =
     Some (ERR_PTR r, k)).
Proof.
  intros Hfresh Hr.
  pose proof (make_remote_register_fails BITS_PER_LONG name h r k Hfresh Hr) as Hmk.
  split; [done|].
  intros Hfree. unfold create_group, bind, gets. rewrite Hfree. by rewrite Hmk.
Qed.

(** [remote_release] frees the input device of the remote and leaves the
    set of registered devices alone. *)
Lemma remote_release_run (gi : nat) (g : remote) (k : kernel) :
  su_children k !! gi = Some g →
  ∃ k', remote_release gi k = Some (tt, k') ∧
        registered k' = registered k ∧
        input_devs k' = delete (input g) (input_devs k) ∧
        kmem k' = kmem k - 1 ∧
        su_children k' = su_children k.
Proof.
  intros Hg. unfold remote_release, bind.
  rewrite (read_remote_run _ _ _ Hg). by eexists.
Qed.

(** ** Entries that never received a keycode *)

Lemma create_entry_run (gi : nat) (name : string) (g : remote) (k : kernel) :
  su_children k !! gi = Some g →
  existsb (λ km, String.eqb (item_name km) name) (cg_children g) = false →
  create_entry gi name true k =
  Some (PTR (length (cg_children g)),
        with_su_children
          (<[gi := set_cg_children (cg_children g ++ [Keymap name 0 0 0 0]) g]>
             (su_children k))
          (with_kmem (kmem k + 1) k)).
Proof.
  intros Hg Hfree. unfold create_entry. unfold bind at 1.
  rewrite (read_remote_run _ _ _ Hg). rewrite Hfree.
  unfold make_keymap, kzalloc, link_obj, bind, modify, ret.
  by rewrite (read_remote_run gi g).
Qed.

Lemma item_store_plain_keycode (KEY_MAX BITS_PER_LONG : Z) (gi ki : nat)
    (attr : keymap_attr) (page : string) (count r : Z)
    (g : remote) (km : keymap) (k k' : kernel) :
  attr ≠ item_keycode →
  su_children k !! gi = Some g →
  cg_children g !! ki = Some km →
  item_store KEY_MAX BITS_PER_LONG gi ki attr page count k = Some (r, k') →
  ∃ g' km', su_children k' !! gi = Some g' ∧ input g' = input g ∧
            cg_children g' !! ki = Some km' ∧ keycode km' = keycode km.
Proof.
  intros Hattr Hg Hkm. unfold item_store.
  destruct (simple_strtoul BITS_PER_LONG page) as [tmp p].
  destruct (trailing_garbage p); [intros [= _ <-]; by exists g, km|].
  destruct (INT_MAX <? tmp); [intros [= _ <-]; by exists g, km|].
  unfold bind. rewrite (store_field_plain _ gi ki attr tmp g km) by done.
  intros [= _ <-].
  destruct (put_keymap_lookup gi ki g km (set_attr attr tmp km) k)
    as (g' & Hg' & Hin & _ & _ & Hkm'); [done..|].
  exists g', (set_attr attr tmp km). split_and!; try done. by destruct attr.
Qed.

(** C4 (amended).  A keymap has no unset keycode: [create_entry] makes the
    entry with keycode 0 (the zero-filled allocation), and writes to the
    protocol, device and command attributes leave the keycode as it is.
    [input_ir_translate] does not look at the keycode: every entry whose
    protocol, device and command equal the signal fires, with a key-down
    event for the keycode the entry holds followed by a sync, so an entry
    that never received a keycode write fires with keycode 0. *)
Theorem translate_fires_without_keycode_write (KEY_MAX BITS_PER_LONG : Z) :
  (∀ gi name g k,
     su_children k !! gi = Some g →
     existsb (λ km, String.eqb (item_name km) name) (cg_children g) = false →
     ∃ k' g',
       create_entry gi name true k = Some (PTR (length (cg_children g)), k') ∧
       su_children k' !! gi = Some g' ∧ input g' = input g ∧
       cg_children g' !! length (cg_children g) = Some (Keymap name 0 0 0 0)) ∧
  (∀ gi ki attr page count r g km k k',
     attr ≠ item_keycode →
     su_children k !! gi = Some g →
     cg_children g !! ki = Some km →
     item_store KEY_MAX BITS_PER_LONG gi ki attr page count k = Some (r, k') →
     ∃ g' km', su_children k' !! gi = Some g' ∧ input g' = input g ∧
               cg_children g' !! ki = Some km' ∧ keycode km' = keycode km) ∧
  (∀ dev protocol' device' command' gi ki g km k,
     su_children k !! gi = Some g →
     cg_children g !! ki = Some km →
     protocol km = protocol' ∧ device km = device' ∧ command km = command' →
     keycode km = 0 →
     ∃ pre post,
       input_ir_translate dev protocol' device' command' k =
       Some (tt, with_events
         (events k ++ pre ++ [EvKey (input g) 0 1; EvSync (input g)] ++ post) k)).
Proof.
  split_and!.
  - intros gi name g k Hg Hfree. eexists _, _.
    split; [by apply create_entry_run|]. cbn. split_and!.
    + apply list_lookup_insert_eq. by eapply lookup_lt_Some.
    + done.
    + cbn. by rewrite lookup_app_r, Nat.sub_diag.
  - intros gi ki attr page count r g km k k'. apply item_store_plain_keycode.
  - intros dev p d c gi ki g km k Hg Hkm Hm Hzero.
    apply tuple_matches_true in Hm.
    destruct (scan_events_fires _ _ _ _ gi ki g km Hg Hkm Hm) as (pre & post & E).
    rewrite translate_run, E, Hzero.
    exists (ir_events dev p d c ++ [EvMutexLock] ++ pre), (post ++ [EvMutexUnlock]).
    by rewrite <- !app_assoc.
Qed.

(** ** Nothing that removes a directory unregisters a device *)

Lemma keeps_ret {A : Type} (a : A) : keeps_registered (ret a).
Proof. by intros k a' k' [= _ <-]. Qed.

Lemma keeps_fault {A : Type} : keeps_registered (@fault A).
Proof. by intros k a k'. Qed.

Lemma keeps_bind {A B : Type} (m : M A) (f : A → M B) :
  keeps_registered m → (∀ a, keeps_registered (f a)) →
  keeps_registered (bind m f).
Proof.
  intros Hm Hf k b k'. unfold bind.
  destruct (m k) as [[a k1]|] eqn:E; [|done].
  intros Hk'. rewrite (Hf a _ _ _ Hk'). by apply (Hm _ _ _ E).
Qed.

Lemma keeps_modify (f : kernel → kernel) :
  (∀ k, registered (f k) = registered k) → keeps_registered (modify f).
Proof. intros Hf k a k' [= _ <-]. apply Hf. Qed.

Lemma keeps_read_remote (gi : nat) : keeps_registered (read_remote gi).
Proof.
  intros k g k'. unfold read_remote.
  destruct (su_children k !! gi); [|done]. by intros [= _ <-].
Qed.

Lemma keeps_read_keymap (gi ki : nat) : keeps_registered (read_keymap gi ki).
Proof.
  apply keeps_bind; [apply keeps_read_remote|]. intros g.
  destruct (cg_children g !! ki); [apply keeps_ret|apply keeps_fault].
Qed.

Lemma keeps_write_input (dev : nat) (f : input_dev → input_dev) :
  keeps_registered (write_input dev f).
Proof.
  intros k a k'. unfold write_input.
  destruct (input_devs k !! dev); [|done]. by intros [= _ <-].
Qed.

Create HintDb keeps.
#[local] Hint Resolve keeps_ret keeps_fault keeps_read_remote keeps_read_keymap
  keeps_write_input : keeps.

Ltac keeps_step :=
  repeat first
    [ solve [eauto with keeps]
    | apply keeps_modify; by intros []
    | apply keeps_bind; [|intros ?] ].

Lemma keeps_keymap_release (gi ki : nat) : keeps_registered (keymap_release gi ki).
Proof. unfold keymap_release, printk, clear_bit, kfree. keeps_step. Qed.

Lemma keeps_remove_entry (gi ki : nat) : keeps_registered (remove_entry gi ki).
Proof.
  unfold remove_entry, unlink_obj.
  apply keeps_bind; [apply keeps_keymap_release|intros _]. keeps_step.
Qed.

Lemma keeps_remove_entries (n gi : nat) : keeps_registered (remove_entries n gi).
Proof.
  induction n as [|n IH]; cbn [remove_entries]; [apply keeps_ret|].
  apply keeps_bind; [apply keeps_remove_entry|by intros _].
Qed.

Lemma keeps_remote_release (gi : nat) : keeps_registered (remote_release gi).
Proof. unfold remote_release, printk, input_free_device, kfree. keeps_step. Qed.

(** Whatever the registry holds, the removal of a group leaves every
    registration with the input core in place. *)
Lemma remove_group_never_unregisters (gi : nat) : keeps_registered (remove_group gi).
Proof.
  unfold remove_group, unlink_group.
  apply keeps_bind; [apply keeps_read_remote|intros g].
  apply keeps_bind; [apply keeps_remove_entries|intros _].
  apply keeps_bind; [apply keeps_remote_release|intros _].
  keeps_step.
Qed.

(** * The claims on concrete registries *)

(** The example of the specification: both remotes fire on (1, 2, 3), and
    (9, 9, 9) reports nothing but the IR event. *)
Example translate_two_remotes :
  events <$> (snd <$> input_ir_translate 9 1 2 3 two_remotes) =
    Some [EvIr 9 IR_PROTOCOL 1; EvIr 9 IR_DEVICE 2; EvIr 9 IR_COMMAND 3; EvSync 9;
          EvMutexLock;
          EvKey 1 30 1; EvSync 1; EvKey 2 31 1; EvSync 2;
          EvMutexUnlock] ∧
  events <$> (snd <$> input_ir_translate 9 9 9 9 two_remotes) =
    Some [EvIr 9 IR_PROTOCOL 9; EvIr 9 IR_DEVICE 9; EvIr 9 IR_COMMAND 9; EvSync 9;
          EvMutexLock; EvMutexUnlock].
Proof. split; by vm_compute. Qed.

Lemma input_ir_translate_broadcast_witness :
  (∃ emitted,
     input_ir_translate 9 1 2 3 two_remotes =
       Some (tt, with_events (events two_remotes ++ emitted) two_remotes) ∧
     (∃ pre post, emitted = pre ++ [EvKey 1 30 1; EvSync 1] ++ post) ∧
     (∃ pre post, emitted = pre ++ [EvKey 2 31 1; EvSync 2] ++ post)) ∧
  (∃ emitted,
     input_ir_translate 9 9 9 9 two_remotes =
       Some (tt, with_events (events two_remotes ++ emitted) two_remotes) ∧
     ∀ e, e ∈ emitted → is_key_event e = false).
Proof.
  split.
  - destruct (input_ir_translate_broadcast 9 1 2 3 two_remotes)
      as (emitted & Hrun & Hfire & _).
    exists emitted. split; [exact Hrun|]. split.
    + apply (Hfire 0%nat 0%nat (Remote "G1" 1 [Keymap "k" 1 2 3 30])
               (Keymap "k" 1 2 3 30)); [reflexivity|reflexivity|].
      repeat split.
    + apply (Hfire 1%nat 0%nat (Remote "G2" 2 [Keymap "k" 1 2 3 31])
               (Keymap "k" 1 2 3 31)); [reflexivity|reflexivity|].
      repeat split.
  - destruct (input_ir_translate_broadcast 9 9 9 9 two_remotes)
      as (emitted & Hrun & _ & _ & Hnone).
    exists emitted. split; [exact Hrun|]. apply Hnone.
    intros g km Hg Hkm [Hp _]. cbn in Hg.
    apply elem_of_cons in Hg as [->|Hg].
    + apply elem_of_cons in Hkm as [->|Hkm]; [discriminate Hp|].
      by apply elem_of_nil in Hkm.
    + apply elem_of_cons in Hg as [->|Hg]; [|by apply elem_of_nil in Hg].
      apply elem_of_cons in Hkm as [->|Hkm]; [discriminate Hp|].
      by apply elem_of_nil in Hkm.
Defined.

(** The entry fires with keycode 0 although no keycode was ever written to
    it: C4 as stated fails. *)
Lemma translate_fires_unwritten_keycode :
  ∃ k k',
    make_unwritten kernel_init = Some (1, k) ∧
    su_children k = [Remote "tv" 5 [Keymap "power" 1 2 3 0]] ∧
    input_ir_translate 9 1 2 3 k = Some (tt, k') ∧
    events k' =
      [EvIr 9 IR_PROTOCOL 1; EvIr 9 IR_DEVICE 2; EvIr 9 IR_COMMAND 3; EvSync 9;
       EvMutexLock; EvKey 5 0 1; EvSync 5; EvMutexUnlock].
Proof.
  eexists _, _. split_and!; [vm_compute; reflexivity| done |vm_compute; reflexivity| done].
Qed.

Lemma translate_fires_without_keycode_write_witness :
  ∃ pre post,
    input_ir_translate 9 1 2 3
      (Kernel [Remote "tv" 5 [Keymap "power" 1 2 3 0]] ∅ ∅ 2 [] []) =
    Some (tt, with_events
      ([] ++ pre ++ [EvKey 5 0 1; EvSync 5] ++ post)
      (Kernel [Remote "tv" 5 [Keymap "power" 1 2 3 0]] ∅ ∅ 2 [] [])).
Proof.
  destruct (translate_fires_without_keycode_write key_max bits_per_long)
    as (_ & _ & Hfire).
  apply (Hfire 9%nat 1 2 3 0%nat 0%nat (Remote "tv" 5 [Keymap "power" 1 2 3 0])
           (Keymap "power" 1 2 3 0)); [reflexivity|reflexivity| |reflexivity].
  repeat split.
Defined.

(** The scripts of the examples reach the states written out above. *)
Example make_tv_remote_run :
  ∃ k, make_tv_remote kernel_init = Some (2, k) ∧
       su_children k = su_children tv_remote ∧
       input_devs k !! 5%nat = input_devs tv_remote !! 5%nat ∧
       kmem k = kmem tv_remote.
Proof. eexists. split_and!; [vm_compute; reflexivity|by vm_compute..]. Qed.

(** A keycode of 1000 is not below [KEY_MAX]; the write is accepted, returns
    [count] and not [-ERANGE], and changes nothing: C3 as stated fails. *)
Lemma item_store_keycode_silently_ignored :
  key_max <= 1000 ∧
  item_store key_max bits_per_long 0 0 item_keycode "1000" 4 tv_remote =
    Some (4, tv_remote) ∧
  4 ≠ - ERANGE.
Proof. split_and!; [done|by vm_compute|done]. Qed.

Lemma item_store_keycode_out_of_range_witness :
  item_store key_max bits_per_long 0 0 item_keycode "4000000000" 10 tv_remote =
    Some (- ERANGE, tv_remote) ∧
  item_store key_max bits_per_long 0 0 item_keycode "767" 3 tv_remote =
    Some (3, tv_remote).
Proof.
  split.
  - apply (item_store_keycode_out_of_range key_max bits_per_long 0 0
             "4000000000" 10 tv_remote); [by left|by vm_compute].
  - apply (item_store_keycode_out_of_range key_max bits_per_long 0 0
             "767" 3 tv_remote); [by left|done].
Defined.

(** Three writes against C7 as stated: digits followed by a blank are
    refused with [-EINVAL] although only white space follows the number;
    digits followed by a newline and other text are accepted; and a text
    without any digit is accepted and stores 0. *)
Lemma item_store_format_check_differs :
  item_store key_max bits_per_long 0 0 item_protocol "12 " 3 tv_remote =
    Some (- EINVAL, tv_remote) ∧
  item_store key_max bits_per_long 0 0 item_protocol
      (String "1" (String "2" (String "010" "abc"))) 6 tv_remote =
    Some (6, put_keymap 0 0 (Remote "tv" 5 [Keymap "power" 1 2 3 30])
               (Keymap "power" 12 2 3 30) tv_remote) ∧
  item_store key_max bits_per_long 0 0 item_protocol EmptyString 0 tv_remote =
    Some (0, put_keymap 0 0 (Remote "tv" 5 [Keymap "power" 1 2 3 30])
               (Keymap "power" 0 2 3 30) tv_remote).
Proof. split_and!; by vm_compute. Qed.

Lemma item_store_errors_witness :
  fst <$> item_store key_max bits_per_long 0 0 item_device "12x" 3 tv_remote =
    Some (- EINVAL) ∧
  fst <$> item_store key_max bits_per_long 0 0 item_device "2147483648" 10 tv_remote =
    Some (- ERANGE).
Proof.
  split.
  - destruct (item_store_errors key_max bits_per_long 0 0 item_device "12x" 3
                tv_remote) as (H & _); [done|].
    apply H. by split.
  - destruct (item_store_errors key_max bits_per_long 0 0 item_device
                "2147483648" 10 tv_remote) as (_ & H & _); [done|].
    apply H. split; [by left|done].
Defined.

(** Two writes against C6 as stated: leading zeros are accepted and not read
    back, and a keycode that is not below [KEY_MAX] is accepted and the old
    keycode is read back. *)
Lemma item_store_show_differs :
  (∃ k1,
     item_store key_max bits_per_long 0 0 item_protocol "007" 3 tv_remote =
       Some (3, k1) ∧
     fst <$> item_show 0 0 item_protocol k1 = Some (String "7" newline, 2) ∧
     String "7" newline ≠ "007"%string ∧
     String "7" newline ≠ ("007" ++ newline)%string) ∧
  (∃ k1,
     item_store key_max bits_per_long 0 0 item_keycode "1000" 4 tv_remote =
       Some (4, k1) ∧
     fst <$> item_show 0 0 item_keycode k1 =
       Some (String "3" (String "0" newline), 3)).
Proof.
  split; eexists; (split; [vm_compute; reflexivity|]).
  - split_and!; [by vm_compute|discriminate|discriminate].
  - by vm_compute.
Qed.

Lemma item_store_show_roundtrip_witness :
  ∃ k1,
    item_store key_max bits_per_long 0 0 item_keycode
      (sprintf_d 42 ++ newline) 3 tv_remote = Some (3, k1) ∧
    item_show 0 0 item_keycode k1 =
      Some ((sprintf_d 42 ++ newline, strlen (sprintf_d 42 ++ newline))%string, k1).
Proof.
  apply (item_store_show_roundtrip key_max bits_per_long 0 0 item_keycode 42
           newline 3 (Remote "tv" 5 [Keymap "power" 1 2 3 30])
           (Keymap "power" 1 2 3 30)
           (InputDev BUS_VIRTUAL "tv" "remotes" 2 (Z.setbit 0 30)) tv_remote);
    [reflexivity|reflexivity|reflexivity|done|done|done|by right].
Defined.

(** Two entries of one remote hold key 30.  After the removal of the first
    the second is still there with keycode 30, and bit 30 is no longer in the
    key bitmap of the remote: C2 as stated fails. *)
Lemma remove_entry_clears_shared_bit :
  ∃ k0 k d0 d,
    make_shared_key kernel_init = Some (2, k0) ∧
    su_children k0 =
      [Remote "tv" 5 [Keymap "power" 0 0 0 30; Keymap "standby" 0 0 0 30]] ∧
    input_devs k0 !! 5%nat = Some d0 ∧ Z.testbit (keybit d0) 30 = true ∧
    remove_entry 0 0 k0 = Some (tt, k) ∧
    su_children k = [Remote "tv" 5 [Keymap "standby" 0 0 0 30]] ∧
    0 <= 30 < key_max ∧
    input_devs k !! 5%nat = Some d ∧ Z.testbit (keybit d) 30 = false.
Proof.
  eexists _, _, _, _.
  split; [vm_compute; reflexivity|].
  split; [done|].
  split; [vm_compute; reflexivity|].
  split; [done|].
  split; [vm_compute; reflexivity|].
  split; [done|].
  split; [done|].
  split; [vm_compute; reflexivity|done].
Qed.

Lemma keycode_bit_reserved_and_released_witness :
  (∃ k' g' km' d',
     item_store key_max bits_per_long 0 0 item_keycode "31" 2 tv_remote =
       Some (2, k') ∧
     su_children k' !! 0%nat = Some g' ∧ input g' = 5%nat ∧
     cg_children g' !! 0%nat = Some km' ∧ keycode km' = 31 ∧
     input_devs k' !! 5%nat = Some d' ∧
     Z.testbit (keybit d') 31 = true) ∧
  (∃ k' g' d',
     remove_entry 0 0 tv_remote = Some (tt, k') ∧
     su_children k' !! 0%nat = Some g' ∧ input g' = 5%nat ∧
     cg_children g' = [] ∧
     input_devs k' !! 5%nat = Some d' ∧
     Z.testbit (keybit d') 30 = false ∧
     ∀ n, n ≠ 30 → Z.testbit (keybit d') n = Z.testbit (Z.setbit 0 30) n).
Proof.
  destruct (keycode_bit_reserved_and_released key_max bits_per_long 0 0
              (Remote "tv" 5 [Keymap "power" 1 2 3 30])
              (Keymap "power" 1 2 3 30)
              (InputDev BUS_VIRTUAL "tv" "remotes" 2 (Z.setbit 0 30)) tv_remote)
    as (Hstore & Hremove & _); [reflexivity..|].
  split.
  - apply (Hstore "31"%string 2); [by left|done|done].
  - exact Hremove.
Defined.

(** Without a removal in between, a second keycode written to an entry
    leaves the bit of the first one in the bitmap. *)
Example keycode_overwrite_keeps_old_bit :
  ∃ k d,
    (make_tv_remote >>
     item_store key_max bits_per_long 0 0 item_keycode "31" 2) kernel_init =
      Some (2, k) ∧
    su_children k = [Remote "tv" 5 [Keymap "power" 1 2 3 31]] ∧
    input_devs k !! 5%nat = Some d ∧
    Z.testbit (keybit d) 30 = true ∧ Z.testbit (keybit d) 31 = true.
Proof.
  eexists _, _.
  split; [vm_compute; reflexivity|].
  split; [done|].
  split; [vm_compute; reflexivity|done].
Qed.

(** C5.  A remote is created with a registered input device and one keymap,
    and the group is removed again.  The keymap and the remote are gone and
    the input device is freed, but the device is still in the set of devices
    registered with the input core: [remote_release] frees the device and
    never unregisters it. *)
Theorem remove_group_leaves_endpoint_registered :
  ∃ k0 k,
    make_tv_remote kernel_init = Some (2, k0) ∧
    su_children k0 = [Remote "tv" 5 [Keymap "power" 1 2 3 30]] ∧
    registered k0 = {[5%nat]} ∧
    remove_group 0 k0 = Some (tt, k) ∧
    su_children k = [] ∧
    input_devs k = ∅ ∧
    kmem k = 0 ∧
    registered k = {[5%nat]}.
Proof.
  eexists _, _.
  split; [vm_compute; reflexivity|].
  split; [done|].
  split; [by vm_compute|].
  split; [vm_compute; reflexivity|].
  split_and!; by vm_compute.
Qed.

Lemma create_group_registration_failure_witness :
  make_remote bits_per_long "dvd" (HostEnv true (Some 6%nat) (- EINVAL)) tv_remote =
    Some (ERR_PTR (- EINVAL), tv_remote) ∧
  create_group bits_per_long "dvd" (HostEnv true (Some 6%nat) (- EINVAL)) tv_remote =
    Some (ERR_PTR (- EINVAL), tv_remote).
Proof.
  destruct (create_group_registration_failure bits_per_long "dvd" 6 (- EINVAL)
              tv_remote) as [Hmake Hcreate]; [reflexivity|done|].
  split; [exact Hmake|]. apply Hcreate. reflexivity.
Defined.

(** * Further properties of the file *)

(** ** Rules for properties that a computation keeps *)

Section Preserves.

Context (P : kernel → Prop).

Lemma preserves_ret {A : Type} (a : A) : preserves P (ret a).
Proof. by intros k a' k' Hk [= _ <-]. Qed.

Lemma preserves_fault {A : Type} : preserves P (@fault A).
Proof. by intros k a k' Hk. Qed.

Lemma preserves_gets {A : Type} (f : kernel → A) : preserves P (gets f).
Proof. by intros k a' k' Hk [= _ <-]. Qed.

Lemma preserves_bind {A B : Type} (m : M A) (f : A → M B) :
  preserves P m → (∀ a, preserves P (f a)) → preserves P (bind m f).
Proof.
  intros Hm Hf k b k' Hk. unfold bind.
  destruct (m k) as [[a k1]|] eqn:E; [|done].
  apply (Hf a). by apply (Hm _ _ _ Hk E).
Qed.

Lemma preserves_modify (f : kernel → kernel) :
  (∀ k, P k → P (f k)) → preserves P (modify f).
Proof. intros Hf k a k' Hk [= _ <-]. by apply Hf. Qed.

Lemma preserves_read_remote (gi : nat) : preserves P (read_remote gi).
Proof.
  intros k g k' Hk. unfold read_remote.
  destruct (su_children k !! gi); [|done]. by intros [= _ <-].
Qed.

Lemma preserves_read_keymap (gi ki : nat) : preserves P (read_keymap gi ki).
Proof.
  apply preserves_bind; [apply preserves_read_remote|]. intros g.
  destruct (cg_children g !! ki); [apply preserves_ret|apply preserves_fault].
Qed.

Lemma preserves_for_each {A : Type} (l : list A) (body : A → M unit) :
  (∀ x, preserves P (body x)) → preserves P (list_for_each_entry l body).
Proof.
  intros Hbody. induction l as [|x l IH]; cbn [list_for_each_entry];
    [apply preserves_ret|].
  apply preserves_bind; [apply Hbody|by intros _].
Qed.

(** A property that does not read the device table is kept by a write to a
    device. *)
Lemma preserves_write_input (dev : nat) (f : input_dev → input_dev) :
  (∀ k m, P k → P (with_input_devs m k)) → preserves P (write_input dev f).
Proof.
  intros HP k a k' Hk. unfold write_input.
  destruct (input_devs k !! dev); [|done]. intros [= _ <-]. by apply HP.
Qed.

End Preserves.

(** The steps of a proof that a computation keeps a property: the rules
    above, and a case distinction wherever the code branches. *)
Ltac preserves_step :=
  first
    [ apply preserves_ret
    | apply preserves_fault
    | apply preserves_gets
    | apply preserves_read_remote
    | apply preserves_read_keymap
    | apply preserves_modify; intros ? HP; exact HP
    | apply preserves_write_input; intros ? ? HP; exact HP
    | apply preserves_for_each; intros ?
    | apply preserves_bind; [|intros ?]
    | match goal with
      | |- preserves _ (match ?x with _ => _ end) => destruct x
      end ].

Ltac preserves_auto := repeat preserves_step.

(** ** The fields of the keymaps stay in range *)

Lemma elem_of_insert_inv {A : Type} (l : list A) (i : nat) (x y : A) :
  x ∈ <[i := y]> l → x = y ∨ x ∈ l.
Proof.
  intros [j Hj]%list_elem_of_lookup.
  destruct (decide (i = j)) as [->|Hne].
  - destruct (decide (j < length l)%nat) as [Hlt|Hge].
    + rewrite list_lookup_insert_eq in Hj by done. left. congruence.
    + rewrite list_insert_ge in Hj by lia. right.
      apply list_elem_of_lookup. eauto.
  - rewrite list_lookup_insert_ne in Hj by done. right.
    apply list_elem_of_lookup. eauto.
Qed.

Section RegistryRange.

Variables (KEY_MAX BITS_PER_LONG : Z).

Local Abbreviation in_range := (registry_in_range KEY_MAX).

(** Replacing the children of one remote by keymaps in range. *)
Lemma registry_in_range_put (gi : nat) (g : remote) (l : list keymap) (k : kernel) :
  in_range k →
  g ∈ su_children k →
  (∀ km, km ∈ l → km ∈ cg_children g ∨ keymap_in_range KEY_MAX km) →
  in_range (with_su_children (<[gi := set_cg_children l g]> (su_children k)) k).
Proof.
  intros Hk Hg Hl g' km Hg' Hkm. cbn in Hg'.
  apply elem_of_insert_inv in Hg' as [->|Hg']; [|by eapply Hk].
  cbn in Hkm. destruct (Hl km Hkm) as [Hold|Hnew]; [by eapply Hk|done].
Qed.

Lemma registry_write_keymap (gi ki : nat) (f : keymap → keymap) :
  (∀ km, keymap_in_range KEY_MAX km → keymap_in_range KEY_MAX (f km)) →
  preserves in_range (write_keymap gi ki f).
Proof.
  intros Hf k a k' Hk. unfold write_keymap, bind, read_remote.
  destruct (su_children k !! gi) as [g|] eqn:Hg; [|done].
  destruct (cg_children g !! ki) as [km|] eqn:Hkm; [|done].
  intros [= _ <-].
  assert (g ∈ su_children k) as Hgin by (apply list_elem_of_lookup; eauto).
  apply registry_in_range_put; [done..|].
  intros km' [->|Hin]%elem_of_insert_inv; [|by left].
  right. apply Hf. eapply Hk; [done|]. apply list_elem_of_lookup. eauto.
Qed.

Lemma registry_link_obj (gi : nat) (km : keymap) :
  keymap_in_range KEY_MAX km → preserves in_range (link_obj gi km).
Proof.
  intros Hkm k a k' Hk. unfold link_obj, bind, read_remote, modify, ret.
  destruct (su_children k !! gi) as [g|] eqn:Hg; [|done].
  intros [= _ <-].
  assert (g ∈ su_children k) as Hgin by (apply list_elem_of_lookup; eauto).
  apply registry_in_range_put; [done..|].
  intros km' [Hin|Heq%list_elem_of_singleton]%elem_of_app; subst; auto.
Qed.

Lemma registry_unlink_obj (gi ki : nat) : preserves in_range (unlink_obj gi ki).
Proof.
  intros k a k' Hk. unfold unlink_obj, bind, read_remote, modify.
  destruct (su_children k !! gi) as [g|] eqn:Hg; [|done].
  intros [= _ <-].
  assert (g ∈ su_children k) as Hgin by (apply list_elem_of_lookup; eauto).
  apply registry_in_range_put; [done..|].
  intros km' Hin%list_elem_of_delete_inv. by left.
Qed.

Lemma registry_link_group (g : remote) :
  cg_children g = [] → preserves in_range (link_group g).
Proof.
  intros Hg k a k' Hk. unfold link_group, bind, gets, modify, ret.
  intros [= _ <-] g' km. cbn.
  intros [Hin|Heq%list_elem_of_singleton]%elem_of_app Hkm; [by eapply Hk|].
  subst g'. rewrite Hg in Hkm. by apply elem_of_nil in Hkm.
Qed.

Lemma registry_unlink_group (gi : nat) : preserves in_range (unlink_group gi).
Proof.
  apply preserves_modify. intros k Hk g km. cbn.
  intros Hin%list_elem_of_delete_inv. by apply Hk.
Qed.

Lemma keymap_in_range_set_attr (attr : keymap_attr) (v : Z) (km : keymap) :
  0 <= v <= INT_MAX →
  (attr = item_keycode → v < KEY_MAX) →
  keymap_in_range KEY_MAX km →
  keymap_in_range KEY_MAX (set_attr attr v km).
Proof.
  intros Hv Hkey (Hp & Hd & Hc & Hk & Hk').
  destruct attr; cbn; unfold keymap_in_range; cbn; split_and!; try done; try lia.
  right. by apply Hkey.
Qed.

Lemma registry_item_store (gi ki : nat) (attr : keymap_attr) (page : string)
    (count : Z) :
  preserves in_range (item_store KEY_MAX BITS_PER_LONG gi ki attr page count).
Proof.
  unfold item_store.
  pose proof (simple_strtoul_nonneg BITS_PER_LONG page) as Hpos.
  destruct (simple_strtoul BITS_PER_LONG page) as [tmp p]. cbn in Hpos.
  destruct (trailing_garbage p); [apply preserves_ret|].
  destruct (INT_MAX <? tmp) eqn:Hmax; [apply preserves_ret|].
  apply Z.ltb_ge in Hmax.
  apply preserves_bind; [|intros _; apply preserves_ret].
  destruct attr; cbn [store_field].
  - apply registry_write_keymap. intros km.
    by apply (keymap_in_range_set_attr item_protocol).
  - apply registry_write_keymap. intros km.
    by apply (keymap_in_range_set_attr item_device).
  - apply registry_write_keymap. intros km.
    by apply (keymap_in_range_set_attr item_command).
  - destruct (tmp <? KEY_MAX) eqn:Hkey; [|apply preserves_ret].
    apply Z.ltb_lt in Hkey.
    apply preserves_bind; [apply preserves_read_remote|intros g].
    apply preserves_bind; [unfold set_bit; preserves_auto|intros _].
    apply registry_write_keymap. intros km.
    by apply (keymap_in_range_set_attr item_keycode).
Qed.

Lemma registry_keymap_release (gi ki : nat) :
  preserves in_range (keymap_release gi ki).
Proof. unfold keymap_release, printk, clear_bit, kfree. preserves_auto. Qed.

Lemma registry_remote_release (gi : nat) :
  preserves in_range (remote_release gi).
Proof. unfold remote_release, printk, input_free_device, kfree. preserves_auto. Qed.

Lemma registry_make_keymap (name : string) (kz : bool) :
  preserves in_range (make_keymap name kz).
Proof. unfold make_keymap, kzalloc. preserves_auto. Qed.

Lemma registry_make_remote (name : string) (env : host_env) :
  preserves in_range (make_remote BITS_PER_LONG name env).
Proof.
  unfold make_remote, kzalloc, input_allocate_device, input_register_device,
    input_free_device, kfree.
  preserves_auto.
Qed.

Lemma registry_translate (dev : nat) (protocol' device' command' : Z) :
  preserves in_range (input_ir_translate dev protocol' device' command').
Proof.
  unfold input_ir_translate, report_match, input_report_ir, input_report_key,
    input_sync, mutex_lock, mutex_unlock, emit.
  preserves_auto.
Qed.

Lemma registry_item_show (gi ki : nat) (attr : keymap_attr) :
  preserves in_range (item_show gi ki attr).
Proof. unfold item_show. preserves_auto. Qed.

End RegistryRange.

(** ** The directory operations keep the fields in range *)

Lemma preserves_bind_returns {A B : Type} (P : kernel → Prop) (Q : A → Prop)
    (m : M A) (f : A → M B) :
  preserves P m → returns Q m → (∀ a, Q a → preserves P (f a)) →
  preserves P (bind m f).
Proof.
  intros Hm HQ Hf k b k' Hk. unfold bind.
  destruct (m k) as [[a k1]|] eqn:E; [|done].
  apply (Hf a); [by eapply HQ|]. by apply (Hm _ _ _ Hk E).
Qed.

Lemma make_keymap_returns (name : string) (kz : bool) :
  returns (λ r, ∀ km, r = PTR km → km = Keymap name 0 0 0 0)
          (make_keymap name kz).
Proof.
  intros k r k'. unfold make_keymap, kzalloc, bind, modify, ret.
  destruct kz; cbn; intros Hr km Hkm; subst r; by inversion Hr.
Qed.

Lemma make_remote_returns (BITS_PER_LONG : Z) (name : string) (env : host_env) :
  returns (λ r, ∀ g, r = PTR g → cg_children g = [] ∧ group_name g = name)
          (make_remote BITS_PER_LONG name env).
Proof.
  intros k r k'. unfold make_remote, kzalloc, input_allocate_device,
    input_register_device, input_free_device, kfree, write_input, bind,
    modify, ret.
  destruct (env_kzalloc env);
    [|cbn; intros Hr g Hg; subst r; by inversion Hr].
  destruct (env_input env) as [h|];
    [|cbn; intros Hr g Hg; subst r; by inversion Hr].
  cbn. rewrite lookup_insert_eq.
  destruct (env_register env =? 0) eqn:E; cbn; rewrite ?E; cbn;
    intros Hr g Hg; subst r; inversion Hr; subst; split; reflexivity.
Qed.

Section RegistryRangeDirs.

Variables (KEY_MAX BITS_PER_LONG : Z).

Local Abbreviation in_range := (registry_in_range KEY_MAX).

Lemma keymap_in_range_zero (name : string) :
  keymap_in_range KEY_MAX (Keymap name 0 0 0 0).
Proof. unfold keymap_in_range, INT_MAX. cbn. split_and!; auto; lia. Qed.

Lemma registry_create_entry (gi : nat) (name : string) (kz : bool) :
  preserves in_range (create_entry gi name kz).
Proof.
  unfold create_entry.
  apply preserves_bind; [apply preserves_read_remote|intros g].
  destruct (existsb _ _); [apply preserves_ret|].
  eapply preserves_bind_returns;
    [apply registry_make_keymap|apply make_keymap_returns|].
  intros [e|km] Hr; [apply preserves_ret|].
  rewrite (Hr km eq_refl).
  apply preserves_bind; [|intros ?; apply preserves_ret].
  apply registry_link_obj, keymap_in_range_zero.
Qed.

Lemma registry_create_group (name : string) (env : host_env) :
  preserves in_range (create_group BITS_PER_LONG name env).
Proof.
  unfold create_group.
  apply preserves_bind; [apply preserves_gets|intros children].
  destruct (existsb _ _); [apply preserves_ret|].
  eapply preserves_bind_returns;
    [apply registry_make_remote|apply make_remote_returns|].
  intros [e|g] Hr; [apply preserves_ret|].
  apply preserves_bind; [|intros ?; apply preserves_ret].
  apply registry_link_group. by apply (Hr g).
Qed.

Lemma registry_remove_entry (gi ki : nat) :
  preserves in_range (remove_entry gi ki).
Proof.
  apply preserves_bind; [apply registry_keymap_release|intros _].
  apply registry_unlink_obj.
Qed.

Lemma registry_remove_entries (n gi : nat) :
  preserves in_range (remove_entries n gi).
Proof.
  induction n as [|n IH]; cbn [remove_entries]; [apply preserves_ret|].
  apply preserves_bind; [apply registry_remove_entry|by intros _].
Qed.

Lemma registry_remove_group (gi : nat) : preserves in_range (remove_group gi).
Proof.
  unfold remove_group.
  apply preserves_bind; [apply preserves_read_remote|intros g].
  apply preserves_bind; [apply registry_remove_entries|intros _].
  apply preserves_bind; [apply registry_remote_release|intros _].
  apply registry_unlink_group.
Qed.

Lemma registry_step (k k' : kernel) :
  in_range k → ir_step KEY_MAX BITS_PER_LONG k k' → in_range k'.
Proof.
  intros Hk Hstep. destruct Hstep as
    [gi ki attr r k k' H|gi ki attr page count r k k' H|gi ki r k k' H
    |name kz r k k' H|gi r k k' H|name env r k k' H|dev p d c r k k' H
    |name env r k k' H|gi name kz r k k' H|gi ki r k k' H|gi r k k' H];
    revert H; apply (λ X, X k r k' Hk).
  - apply registry_item_show.
  - apply registry_item_store.
  - apply registry_keymap_release.
  - apply registry_make_keymap.
  - apply registry_remote_release.
  - apply registry_make_remote.
  - apply registry_translate.
  - apply registry_create_group.
  - apply registry_create_entry.
  - apply registry_remove_entry.
  - apply registry_remove_group.
Qed.

(** X5.  In every state reached from the empty registry by calls of the
    functions of the file and of the directory operations, each keymap holds
    a protocol, a device, a command and a keycode between 0 and [INT_MAX],
    and its keycode is 0 or below [KEY_MAX]. *)
Theorem reachable_registry_in_range (k : kernel) :
  rtc (ir_step KEY_MAX BITS_PER_LONG) kernel_init k → registry_in_range KEY_MAX k.
Proof.
  intros Hreach.
  assert (in_range kernel_init) as Hinit.
  { intros g km Hg. by apply elem_of_nil in Hg. }
  induction Hreach as [k|k k1 k2 Hstep _ IH]; [done|].
  apply IH. by eapply registry_step.
Qed.

End RegistryRangeDirs.

(** ** No call takes a registration away *)

Section Registrations.

Variables (KEY_MAX BITS_PER_LONG : Z) (S : gset nat).

Local Abbreviation holds := (λ k : kernel, S ⊆ registered k).

Ltac registered_auto :=
  repeat first
    [ preserves_step
    | apply preserves_modify; intros ? HP; cbn; set_solver ].

Lemma registered_item_show (gi ki : nat) (attr : keymap_attr) :
  preserves holds (item_show gi ki attr).
Proof. unfold item_show. registered_auto. Qed.

Lemma registered_item_store (gi ki : nat) (attr : keymap_attr) (page : string)
    (count : Z) :
  preserves holds (item_store KEY_MAX BITS_PER_LONG gi ki attr page count).
Proof.
  unfold item_store, store_field, write_keymap, set_bit. registered_auto.
Qed.

Lemma registered_keymap_release (gi ki : nat) :
  preserves holds (keymap_release gi ki).
Proof. unfold keymap_release, printk, clear_bit, kfree. registered_auto. Qed.

Lemma registered_make_keymap (name : string) (kz : bool) :
  preserves holds (make_keymap name kz).
Proof. unfold make_keymap, kzalloc. registered_auto. Qed.

Lemma registered_remote_release (gi : nat) :
  preserves holds (remote_release gi).
Proof. unfold remote_release, printk, input_free_device, kfree. registered_auto. Qed.

Lemma registered_make_remote (name : string) (env : host_env) :
  preserves holds (make_remote BITS_PER_LONG name env).
Proof.
  unfold make_remote, kzalloc, input_allocate_device, input_register_device,
    input_free_device, kfree.
  registered_auto.
Qed.

Lemma registered_translate (dev : nat) (protocol' device' command' : Z) :
  preserves holds (input_ir_translate dev protocol' device' command').
Proof.
  unfold input_ir_translate, report_match, input_report_ir, input_report_key,
    input_sync, mutex_lock, mutex_unlock, emit.
  registered_auto.
Qed.

Lemma registered_create_group (name : string) (env : host_env) :
  preserves holds (create_group BITS_PER_LONG name env).
Proof.
  unfold create_group, link_group.
  apply preserves_bind; [apply preserves_gets|intros children].
  destruct (existsb _ _); [apply preserves_ret|].
  apply preserves_bind; [apply registered_make_remote|intros r].
  registered_auto.
Qed.

Lemma registered_create_entry (gi : nat) (name : string) (kz : bool) :
  preserves holds (create_entry gi name kz).
Proof.
  unfold create_entry, link_obj.
  apply preserves_bind; [apply preserves_read_remote|intros g].
  destruct (existsb _ _); [apply preserves_ret|].
  apply preserves_bind; [apply registered_make_keymap|intros r].
  registered_auto.
Qed.

Lemma registered_remove_entry (gi ki : nat) :
  preserves holds (remove_entry gi ki).
Proof.
  apply preserves_bind; [apply registered_keymap_release|intros _].
  unfold unlink_obj. registered_auto.
Qed.

Lemma registered_remove_entries (n gi : nat) :
  preserves holds (remove_entries n gi).
Proof.
  induction n as [|n IH]; cbn [remove_entries]; [apply preserves_ret|].
  apply preserves_bind; [apply registered_remove_entry|by intros _].
Qed.

Lemma registered_remove_group (gi : nat) :
  preserves holds (remove_group gi).
Proof.
  unfold remove_group, unlink_group.
  apply preserves_bind; [apply preserves_read_remote|intros g].
  apply preserves_bind; [apply registered_remove_entries|intros _].
  apply preserves_bind; [apply registered_remote_release|intros _].
  registered_auto.
Qed.

Lemma registered_step (k k' : kernel) :
  S ⊆ registered k → ir_step KEY_MAX BITS_PER_LONG k k' → S ⊆ registered k'.
Proof.
  intros Hk Hstep. destruct Hstep as
    [gi ki attr r k k' H|gi ki attr page count r k k' H|gi ki r k k' H
    |name kz r k k' H|gi r k k' H|name env r k k' H|dev p d c r k k' H
    |name env r k k' H|gi name kz r k k' H|gi ki r k k' H|gi r k k' H];
    revert H; apply (λ X, X k r k' Hk).
  - apply registered_item_show.
  - apply registered_item_store.
  - apply registered_keymap_release.
  - apply registered_make_keymap.
  - apply registered_remote_release.
  - apply registered_make_remote.
  - apply registered_translate.
  - apply registered_create_group.
  - apply registered_create_entry.
  - apply registered_remove_entry.
  - apply registered_remove_group.
Qed.

End Registrations.

(** X10.  Whatever sequence of calls of the functions of the file and of the
    directory operations is made, a device that is registered with the
    input core stays registered: no call removes a registration. *)
Theorem registrations_only_grow (KEY_MAX BITS_PER_LONG : Z) (k k' : kernel) :
  rtc (ir_step KEY_MAX BITS_PER_LONG) k k' → registered k ⊆ registered k'.
Proof.
  intros Hreach. induction Hreach as [k|k k1 k2 Hstep _ IH]; [done|].
  etransitivity; [|exact IH].
  by apply (registered_step KEY_MAX BITS_PER_LONG (registered k) k k1).
Qed.

(** ** The key bitmaps hold key codes only *)

Section CapsRange.

Variables (KEY_MAX BITS_PER_LONG : Z).

Local Abbreviation caps := (caps_in_range KEY_MAX).

Lemma caps_write_input (dev : nat) (f : input_dev → input_dev) :
  (∀ d n, Z.testbit (keybit (f d)) n = true →
          Z.testbit (keybit d) n = true ∨ 0 <= n < KEY_MAX) →
  preserves caps (write_input dev f).
Proof.
  intros Hf k a k' Hk. unfold write_input.
  destruct (input_devs k !! dev) as [d|] eqn:Hd; [|done].
  intros [= _ <-] h d' n. cbn. rewrite lookup_insert.
  case_decide as Hh.
  - intros [= <-] Hbit. destruct (Hf d n Hbit) as [Hold|Hnew]; [|done].
    by apply (Hk dev d n).
  - apply Hk.
Qed.

Lemma caps_set_bit (nr : Z) (dev : nat) :
  0 <= nr < KEY_MAX → preserves caps (set_bit nr dev).
Proof.
  intros Hnr. apply caps_write_input. intros d n. cbn.
  rewrite Z.setbit_eqb by lia.
  intros [Heq%Z.eqb_eq|Hold]%orb_true_iff; [right; lia|by left].
Qed.

Lemma caps_clear_bit (nr : Z) (dev : nat) : preserves caps (clear_bit nr dev).
Proof.
  apply caps_write_input. intros d n. cbn.
  rewrite Z.clearbit_eqb. intros [Hold _]%andb_true_iff. by left.
Qed.

Lemma caps_allocate (r : option nat) : preserves caps (input_allocate_device r).
Proof.
  destruct r as [h|]; [|apply preserves_ret]. cbn [input_allocate_device].
  apply preserves_bind; [|intros _; apply preserves_ret].
  apply preserves_modify. intros k Hk h' d n. cbn. rewrite lookup_insert.
  case_decide; [|apply Hk]. intros [= <-]. cbn. by rewrite Z.bits_0.
Qed.

Lemma caps_free (dev : nat) : preserves caps (input_free_device dev).
Proof.
  apply preserves_modify. intros k Hk h d n. cbn. rewrite lookup_delete.
  case_decide; [done|apply Hk].
Qed.

Ltac caps_auto :=
  repeat first
    [ apply caps_allocate
    | apply caps_free
    | apply caps_clear_bit
    | preserves_step ].

Lemma caps_item_show (gi ki : nat) (attr : keymap_attr) :
  preserves caps (item_show gi ki attr).
Proof. unfold item_show. caps_auto. Qed.

Lemma caps_item_store (gi ki : nat) (attr : keymap_attr) (page : string)
    (count : Z) :
  preserves caps (item_store KEY_MAX BITS_PER_LONG gi ki attr page count).
Proof.
  unfold item_store.
  pose proof (simple_strtoul_nonneg BITS_PER_LONG page) as Hpos.
  destruct (simple_strtoul BITS_PER_LONG page) as [tmp p]. cbn in Hpos.
  destruct (trailing_garbage p); [apply preserves_ret|].
  destruct (INT_MAX <? tmp); [apply preserves_ret|].
  apply preserves_bind; [|intros _; apply preserves_ret].
  destruct attr; cbn [store_field]; unfold write_keymap; try by caps_auto.
  destruct (tmp <? KEY_MAX) eqn:Hkey; [|apply preserves_ret].
  apply Z.ltb_lt in Hkey.
  apply preserves_bind; [apply preserves_read_remote|intros g].
  apply preserves_bind; [by apply caps_set_bit|intros _]. caps_auto.
Qed.

Lemma caps_keymap_release (gi ki : nat) : preserves caps (keymap_release gi ki).
Proof. unfold keymap_release, printk, kfree. caps_auto. Qed.

Lemma caps_make_keymap (name : string) (kz : bool) :
  preserves caps (make_keymap name kz).
Proof. unfold make_keymap, kzalloc. caps_auto. Qed.

Lemma caps_remote_release (gi : nat) : preserves caps (remote_release gi).
Proof. unfold remote_release, printk, kfree. caps_auto. Qed.

Lemma caps_make_remote (name : string) (env : host_env) :
  preserves caps (make_remote BITS_PER_LONG name env).
Proof.
  unfold make_remote, kzalloc, input_register_device, kfree.
  apply preserves_bind; [caps_auto|intros ok].
  destruct ok; [|apply preserves_ret].
  apply preserves_bind; [apply caps_allocate|intros inp].
  destruct inp as [h|]; [|caps_auto].
  apply preserves_bind; [|intros _; caps_auto].
  apply caps_write_input. intros d n. cbn. by left.
Qed.

Lemma caps_translate (dev : nat) (protocol' device' command' : Z) :
  preserves caps (input_ir_translate dev protocol' device' command').
Proof.
  unfold input_ir_translate, report_match, input_report_ir, input_report_key,
    input_sync, mutex_lock, mutex_unlock, emit.
  caps_auto.
Qed.

Lemma caps_create_group (name : string) (env : host_env) :
  preserves caps (create_group BITS_PER_LONG name env).
Proof.
  unfold create_group, link_group.
  apply preserves_bind; [apply preserves_gets|intros children].
  destruct (existsb _ _); [apply preserves_ret|].
  apply preserves_bind; [apply caps_make_remote|intros r]. caps_auto.
Qed.

Lemma caps_create_entry (gi : nat) (name : string) (kz : bool) :
  preserves caps (create_entry gi name kz).
Proof.
  unfold create_entry, link_obj.
  apply preserves_bind; [apply preserves_read_remote|intros g].
  destruct (existsb _ _); [apply preserves_ret|].
  apply preserves_bind; [apply caps_make_keymap|intros r]. caps_auto.
Qed.

Lemma caps_remove_entry (gi ki : nat) : preserves caps (remove_entry gi ki).
Proof.
  apply preserves_bind; [apply caps_keymap_release|intros _].
  unfold unlink_obj. caps_auto.
Qed.

Lemma caps_remove_entries (n gi : nat) : preserves caps (remove_entries n gi).
Proof.
  induction n as [|n IH]; cbn [remove_entries]; [apply preserves_ret|].
  apply preserves_bind; [apply caps_remove_entry|by intros _].
Qed.

Lemma caps_remove_group (gi : nat) : preserves caps (remove_group gi).
Proof.
  unfold remove_group, unlink_group.
  apply preserves_bind; [apply preserves_read_remote|intros g].
  apply preserves_bind; [apply caps_remove_entries|intros _].
  apply preserves_bind; [apply caps_remote_release|intros _]. caps_auto.
Qed.

Lemma caps_step (k k' : kernel) :
  caps k → ir_step KEY_MAX BITS_PER_LONG k k' → caps k'.
Proof.
  intros Hk Hstep. destruct Hstep as
    [gi ki attr r k k' H|gi ki attr page count r k k' H|gi ki r k k' H
    |name kz r k k' H|gi r k k' H|name env r k k' H|dev p d c r k k' H
    |name env r k k' H|gi name kz r k k' H|gi ki r k k' H|gi r k k' H];
    revert H; apply (λ X, X k r k' Hk).
  - apply caps_item_show.
  - apply caps_item_store.
  - apply caps_keymap_release.
  - apply caps_make_keymap.
  - apply caps_remote_release.
  - apply caps_make_remote.
  - apply caps_translate.
  - apply caps_create_group.
  - apply caps_create_entry.
  - apply caps_remove_entry.
  - apply caps_remove_group.
Qed.

(** X6.  In every state reached from the empty registry by calls of the
    functions of the file and of the directory operations, every bit that is
    set in the key bitmap of an input device is the bit of a key code [n]
    with [0 <= n < KEY_MAX]: no call reserves a bit outside the key range. *)
Theorem reachable_caps_in_range (k : kernel) :
  rtc (ir_step KEY_MAX BITS_PER_LONG) kernel_init k → caps_in_range KEY_MAX k.
Proof.
  intros Hreach.
  assert (caps kernel_init) as Hinit by (by intros h d n).
  induction Hreach as [k|k k1 k2 Hstep _ IH]; [done|].
  apply IH. by eapply caps_step.
Qed.

End CapsRange.

(** ** What a write changes and what it leaves alone *)

Section StoreFrame.

Variables (KEY_MAX BITS_PER_LONG : Z).

(** The three outcomes of a write that returns: nothing changed; one field
    of the keymap changed; the keycode changed and its bit was set. *)
Lemma item_store_cases (gi ki : nat) (attr : keymap_attr) (page : string)
    (count r : Z) (k k' : kernel) :
  item_store KEY_MAX BITS_PER_LONG gi ki attr page count k = Some (r, k') →
  let v := (simple_strtoul BITS_PER_LONG page).1 in
  k' = k ∨
  (∃ g km,
     su_children k !! gi = Some g ∧ cg_children g !! ki = Some km ∧
     0 <= v <= INT_MAX ∧ attr ≠ item_keycode ∧ r = count ∧
     k' = put_keymap gi ki g (set_attr attr v km) k) ∨
  (∃ g km d,
     su_children k !! gi = Some g ∧ cg_children g !! ki = Some km ∧
     input_devs k !! input g = Some d ∧
     0 <= v <= INT_MAX ∧ v < KEY_MAX ∧ attr = item_keycode ∧ r = count ∧
     k' = put_keymap gi ki g (set_keycode v km)
            (put_keybit (input g) d (Z.setbit (keybit d) v) k)).
Proof.
  intros H. cbn zeta. revert H. unfold item_store.
  pose proof (simple_strtoul_nonneg BITS_PER_LONG page) as Hpos.
  destruct (simple_strtoul BITS_PER_LONG page) as [tmp p]. cbn [fst] in *.
  destruct (trailing_garbage p); [intros [= _ <-]; by left|].
  destruct (INT_MAX <? tmp) eqn:Hmax; [intros [= _ <-]; by left|].
  apply Z.ltb_ge in Hmax.
  assert (∀ a : keymap_attr, a ≠ item_keycode → a = attr →
    (write_keymap gi ki (set_attr a tmp) >> ret count) k = Some (r, k') →
    ∃ g km,
      su_children k !! gi = Some g ∧ cg_children g !! ki = Some km ∧
      0 <= tmp <= INT_MAX ∧ attr ≠ item_keycode ∧ r = count ∧
      k' = put_keymap gi ki g (set_attr attr tmp km) k) as Hplain.
  { intros a Ha <-. unfold write_keymap, bind, read_remote, modify, ret.
    destruct (su_children k !! gi) as [g|] eqn:Hg; [|done].
    destruct (cg_children g !! ki) as [km|] eqn:Hkm; [|done].
    intros [= <- <-]. by exists g, km. }
  destruct attr; cbn [store_field].
  - intros H. right; left. by apply (Hplain item_protocol).
  - intros H. right; left. by apply (Hplain item_device).
  - intros H. right; left. by apply (Hplain item_command).
  - destruct (tmp <? KEY_MAX) eqn:Hkey; [|intros [= _ <-]; by left].
    apply Z.ltb_lt in Hkey.
    unfold set_bit, write_input, write_keymap.
    unfold bind, read_remote, modify, ret.
    destruct (su_children k !! gi) as [g|] eqn:Hg; [|done].
    destruct (input_devs k !! input g) as [d|] eqn:Hd; [|done].
    cbn [su_children with_input_devs]. rewrite Hg.
    destruct (cg_children g !! ki) as [km|] eqn:Hkm; [|done].
    intros [= <- <-]. right; right. by exists g, km, d.
Qed.

Lemma get_keymap_put_keymap_ne (gi ki gj kj : nat) (g : remote)
    (km' : keymap) (k : kernel) :
  su_children k !! gi = Some g →
  gj ≠ gi ∨ kj ≠ ki →
  get_keymap (put_keymap gi ki g km' k) gj kj = get_keymap k gj kj.
Proof.
  intros Hg Hne. unfold get_keymap, put_keymap. cbn [su_children with_su_children].
  destruct (decide (gj = gi)) as [->|Hgj].
  - rewrite list_lookup_insert_eq by (by eapply lookup_lt_Some).
    rewrite Hg. cbn. apply list_lookup_insert_ne. by destruct Hne.
  - by rewrite list_lookup_insert_ne.
Qed.

Lemma get_keymap_put_keymap_eq (gi ki : nat) (g : remote) (km km' : keymap)
    (k : kernel) :
  su_children k !! gi = Some g →
  cg_children g !! ki = Some km →
  get_keymap (put_keymap gi ki g km' k) gi ki = Some km'.
Proof.
  intros Hg Hkm. unfold get_keymap, put_keymap. cbn [su_children with_su_children].
  rewrite list_lookup_insert_eq by (by eapply lookup_lt_Some).
  cbn. apply list_lookup_insert_eq. by eapply lookup_lt_Some.
Qed.

Lemma put_keymap_fmap {B : Type} (f : remote → B) (gi ki : nat) (g : remote)
    (km' : keymap) (k : kernel) :
  su_children k !! gi = Some g →
  f (set_cg_children (<[ki := km']> (cg_children g)) g) = f g →
  f <$> su_children (put_keymap gi ki g km' k) = f <$> su_children k.
Proof.
  intros Hg Hf. unfold put_keymap. cbn [su_children with_su_children].
  rewrite list_fmap_insert, Hf. apply list_insert_id.
  by rewrite list_lookup_fmap, Hg.
Qed.

Lemma attr_value_set_attr_ne (attr attr' : keymap_attr) (v : Z) (km : keymap) :
  attr' ≠ attr → attr_value attr' (set_attr attr v km) = attr_value attr' km.
Proof. by destruct attr, attr'. Qed.

(** X3.  A write to an attribute of one keymap changes at most that field of
    that keymap.  Every other keymap of every remote is as before, the
    keymap written keeps its name and its other three fields, every remote
    keeps its name, its input device and its number of keymaps, and the
    registrations, the allocations and the events are untouched. *)
Theorem item_store_frame (gi ki : nat) (attr : keymap_attr) (page : string)
    (count r : Z) (k k' : kernel) :
  item_store KEY_MAX BITS_PER_LONG gi ki attr page count k = Some (r, k') →
  (∀ gj kj, gj ≠ gi ∨ kj ≠ ki → get_keymap k' gj kj = get_keymap k gj kj) ∧
  (∀ km, get_keymap k gi ki = Some km →
     ∃ km', get_keymap k' gi ki = Some km' ∧ item_name km' = item_name km ∧
            ∀ attr', attr' ≠ attr → attr_value attr' km' = attr_value attr' km) ∧
  group_name <$> su_children k' = group_name <$> su_children k ∧
  input <$> su_children k' = input <$> su_children k ∧
  (length ∘ cg_children) <$> su_children k' =
    (length ∘ cg_children) <$> su_children k ∧
  registered k' = registered k ∧ kmem k' = kmem k ∧
  events k' = events k ∧ klog k' = klog k.
Proof.
  intros H. apply item_store_cases in H. cbn zeta in H.
  destruct H as [->|[(g & km & Hg & Hkm & _ & Hattr & _ & ->)
                    |(g & km & d & Hg & Hkm & _ & _ & _ & -> & _ & ->)]].
  - split_and!; try done. intros km Hkm. by exists km.
  - split_and!; try done.
    + intros gj kj Hne. by apply get_keymap_put_keymap_ne.
    + intros km0 Hkm0. unfold get_keymap in Hkm0. rewrite Hg, Hkm in Hkm0.
      injection Hkm0 as <-. eexists. split; [by eapply get_keymap_put_keymap_eq|].
      split; [by destruct attr|]. intros attr' Hne.
      by apply attr_value_set_attr_ne.
    + by apply put_keymap_fmap.
    + by apply put_keymap_fmap.
    + apply put_keymap_fmap; [done|]. cbn. by rewrite length_insert.
  - split_and!; try done.
    + intros gj kj Hne.
      etransitivity; [by apply get_keymap_put_keymap_ne|done].
    + intros km0 Hkm0. unfold get_keymap in Hkm0. rewrite Hg, Hkm in Hkm0.
      injection Hkm0 as <-. eexists.
      split; [by apply (get_keymap_put_keymap_eq gi ki g km)|].
      split; [done|]. intros attr' Hne.
      by apply (attr_value_set_attr_ne item_keycode).
    + etransitivity; [by apply (put_keymap_fmap group_name gi ki g)|done].
    + etransitivity; [by apply (put_keymap_fmap input gi ki g)|done].
    + etransitivity;
        [apply (put_keymap_fmap (length ∘ cg_children) gi ki g); [done|];
         cbn; by rewrite length_insert|done].
Qed.

(** X4.  A write never takes a bit out of a key bitmap and never adds or
    drops a device.  The only bit it can add is the bit of the keycode
    written, below [KEY_MAX], on the input device of the remote that owns
    the keymap; the bit of the keycode that the keymap held before stays. *)
Theorem item_store_key_bits (gi ki : nat) (attr : keymap_attr) (page : string)
    (count r : Z) (k k' : kernel) :
  item_store KEY_MAX BITS_PER_LONG gi ki attr page count k = Some (r, k') →
  let v := (simple_strtoul BITS_PER_LONG page).1 in
  (∀ h, input_devs k !! h = None → input_devs k' !! h = None) ∧
  (∀ h d, input_devs k !! h = Some d →
     ∃ d', input_devs k' !! h = Some d' ∧
       (∀ n, Z.testbit (keybit d) n = true → Z.testbit (keybit d') n = true) ∧
       (∀ n, Z.testbit (keybit d') n = true →
          Z.testbit (keybit d) n = true ∨
          (attr = item_keycode ∧ n = v ∧ 0 <= v < KEY_MAX ∧
           input <$> su_children k !! gi = Some h))).
Proof.
  intros H v. apply item_store_cases in H. cbn zeta in H. fold v in H.
  destruct H as [->|[(g & km & Hg & Hkm & _ & Hattr & _ & ->)
                    |(g & km & d & Hg & Hkm & Hd & Hv & Hkey & -> & _ & ->)]].
  - split; [done|]. intros h d Hd. exists d. split_and!; auto.
  - split; [done|]. intros h d Hd. exists d. split_and!; auto.
  - cbn [input_devs put_keymap put_keybit with_su_children with_input_devs].
    split.
    + intros h Hh. rewrite lookup_insert_ne; [done|]. congruence.
    + intros h d0 Hd0. destruct (decide (h = input g)) as [->|Hne].
      * rewrite Hd in Hd0. injection Hd0 as <-.
        rewrite lookup_insert_eq. eexists. split; [done|]. cbn.
        split; intros n; rewrite Z.setbit_eqb by lia.
        -- intros ->. apply orb_true_r.
        -- intros [Heq%Z.eqb_eq|Hold]%orb_true_iff; [|by left].
           right. rewrite Hg. split_and!; auto; lia.
      * rewrite lookup_insert_ne by done. exists d0. split_and!; auto.
Qed.

End StoreFrame.

(** ** Key events *)

Lemma scan_events_key_inv (protocol' device' command' : Z)
    (children : list remote) (h : nat) (c v : Z) :
  EvKey h c v ∈ scan_events protocol' device' command' children →
  ∃ g km, g ∈ children ∧ km ∈ cg_children g ∧
          tuple_matches protocol' device' command' km = true ∧
          h = input g ∧ c = keycode km ∧ v = 1.
Proof.
  rewrite list_elem_of_In. unfold scan_events. rewrite in_flat_map.
  intros (g & Hg & Hin). unfold key_events in Hin. rewrite in_flat_map in Hin.
  destruct Hin as (km & Hkm & He).
  exists g, km. apply list_elem_of_In in Hg, Hkm.
  destruct (tuple_matches protocol' device' command' km); [|by destruct He].
  destruct He as [He|[He|[]]]; [|discriminate He].
  by injection He as <- <- <-.
Qed.

(** X7.  When the fields of the keymaps are in range and [KEY_MAX] is
    positive, every key event that a translation reports is a key-down
    (value 1) for a key code in [0 .. KEY_MAX - 1], and it is the keycode of
    a keymap of the remote it is reported on whose protocol, device and
    command equal the signal.  No key-up is ever reported. *)
Theorem input_ir_translate_key_events (KEY_MAX : Z) (dev : nat)
    (protocol' device' command' : Z) (k : kernel) :
  registry_in_range KEY_MAX k →
  0 < KEY_MAX →
  ∃ emitted,
    input_ir_translate dev protocol' device' command' k =
      Some (tt, with_events (events k ++ emitted) k) ∧
    ∀ h c v, EvKey h c v ∈ emitted →
      v = 1 ∧ 0 <= c < KEY_MAX ∧
      ∃ g km, g ∈ su_children k ∧ km ∈ cg_children g ∧
              h = input g ∧ c = keycode km ∧
              protocol km = protocol' ∧ device km = device' ∧
              command km = command'.
Proof.
  intros Hrange Hpos. eexists. split; [apply translate_run|].
  intros h c v Hin.
  assert (EvKey h c v ∈ scan_events protocol' device' command' (su_children k))
    as Hscan.
  { unfold ir_events in Hin.
    repeat (apply elem_of_cons in Hin as [Hin|Hin]; [discriminate Hin|]).
    apply elem_of_app in Hin as [Hin|Hin]; [done|].
    apply elem_of_cons in Hin as [Hin|Hin]; [discriminate Hin|].
    by apply elem_of_nil in Hin. }
  apply scan_events_key_inv in Hscan
    as (g & km & Hg & Hkm & Hm & -> & -> & ->).
  apply tuple_matches_true in Hm.
  destruct (Hrange g km Hg Hkm) as (_ & _ & _ & Hk & Hk').
  split; [done|]. split; [lia|]. by exists g, km.
Qed.

(** X11.  A translation keeps no state of its own: the same signal
    translated twice in a row reports the same events twice, the second
    key-down of each matching keymap following the first with no key-up in
    between, and the registry is as before. *)
Theorem input_ir_translate_twice (dev : nat) (protocol' device' command' : Z)
    (k : kernel) :
  let once :=
    ir_events dev protocol' device' command' ++ [EvMutexLock] ++
    scan_events protocol' device' command' (su_children k) ++ [EvMutexUnlock] in
  (input_ir_translate dev protocol' device' command' >>
   input_ir_translate dev protocol' device' command') k =
  Some (tt, with_events (events k ++ once ++ once) k).
Proof.
  intros once. unfold bind. rewrite translate_run. rewrite translate_run.
  cbn [events su_children with_events]. rewrite with_events_twice.
  by rewrite <- app_assoc.
Qed.

(** ** A keycode written is the key reported *)

(** X8.  After an accepted write of a keycode [v] below [KEY_MAX] to a
    keymap, a translation of the signal that the keymap holds reports a
    key-down for [v], followed by a sync, on the input device of the remote
    that owns the keymap. *)
Theorem keycode_write_then_translate (KEY_MAX BITS_PER_LONG : Z) (gi ki : nat)
    (page : string) (count : Z) (dev : nat)
    (g : remote) (km : keymap) (d : input_dev) (k : kernel) :
  let v := (simple_strtoul BITS_PER_LONG page).1 in
  let c := deref (simple_strtoul BITS_PER_LONG page).2 in
  su_children k !! gi = Some g →
  cg_children g !! ki = Some km →
  input_devs k !! input g = Some d →
  c = Ascii.zero ∨ c = "010"%char →
  v <= INT_MAX →
  v < KEY_MAX →
  ∃ k1 pre post,
    item_store KEY_MAX BITS_PER_LONG gi ki item_keycode page count k =
      Some (count, k1) ∧
    input_ir_translate dev (protocol km) (device km) (command km) k1 =
      Some (tt, with_events
        (events k1 ++ pre ++ [EvKey (input g) v 1; EvSync (input g)] ++ post) k1).
Proof.
  intros v c Hg Hkm Hd Hc Hv Hkey. apply trailing_garbage_false in Hc.
  destruct (put_keymap_lookup gi ki g km (set_keycode v km)
              (put_keybit (input g) d (Z.setbit (keybit d) v) k))
    as (g' & Hg' & Hin & _ & _ & Hkm'); [done..|].
  assert (tuple_matches (protocol km) (device km) (command km)
            (set_keycode v km) = true) as Hm.
  { by apply tuple_matches_true. }
  destruct (scan_events_fires _ _ _ _ gi ki g' _ Hg' Hkm' Hm)
    as (pre & post & E).
  exists (put_keymap gi ki g (set_keycode v km)
            (put_keybit (input g) d (Z.setbit (keybit d) v) k)),
    (ir_events dev (protocol km) (device km) (command km) ++
     [EvMutexLock] ++ pre),
    (post ++ [EvMutexUnlock]).
  split.
  - by apply (item_store_stores _ _ gi ki item_keycode page count g km d).
  - rewrite translate_run, E, Hin. cbn [keycode set_keycode].
    by rewrite <- !app_assoc.
Qed.

(** ** Writing back what was read *)

Lemma put_keymap_id (gi ki : nat) (g : remote) (km : keymap) (k : kernel) :
  su_children k !! gi = Some g →
  cg_children g !! ki = Some km →
  put_keymap gi ki g km k = k.
Proof.
  intros Hg Hkm. unfold put_keymap.
  rewrite (list_insert_id (cg_children g)) by done.
  replace (set_cg_children (cg_children g) g) with g by (by destruct g).
  rewrite list_insert_id by done. by destruct k.
Qed.

Lemma put_keybit_id (h : nat) (d : input_dev) (k : kernel) :
  input_devs k !! h = Some d → put_keybit h d (keybit d) k = k.
Proof.
  intros Hd. unfold put_keybit.
  replace (set_keybit (keybit d) d) with d by (by destruct d).
  rewrite insert_id by done. by destruct k.
Qed.

Lemma setbit_same (a n : Z) :
  0 <= n → Z.testbit a n = true → Z.setbit a n = a.
Proof.
  intros Hn Hbit. apply Z.bits_inj'. intros m Hm.
  rewrite Z.setbit_eqb by done.
  destruct (Z.eqb_spec n m) as [->|Hne]; [by rewrite Hbit|done].
Qed.

Lemma set_attr_attr_value (attr : keymap_attr) (km : keymap) :
  set_attr attr (attr_value attr km) km = km.
Proof. by destruct attr, km. Qed.

(** X9.  The text that [item_show] prints for an attribute is accepted by
    [item_store] for the same attribute and changes nothing: for a value
    between 0 and [INT_MAX] and, for the keycode, below [KEY_MAX] with its
    bit set, reading an attribute and writing the text back leaves the
    whole state as it was. *)
Theorem item_show_then_store (KEY_MAX BITS_PER_LONG : Z) (gi ki : nat)
    (attr : keymap_attr) (count : Z)
    (g : remote) (km : keymap) (d : input_dev) (k : kernel) :
  su_children k !! gi = Some g →
  cg_children g !! ki = Some km →
  input_devs k !! input g = Some d →
  31 <= BITS_PER_LONG →
  0 <= attr_value attr km <= INT_MAX →
  (attr = item_keycode →
     keycode km < KEY_MAX ∧ Z.testbit (keybit d) (keycode km) = true) →
  ∃ page len,
    item_show gi ki attr k = Some ((page, len), k) ∧
    item_store KEY_MAX BITS_PER_LONG gi ki attr page count k = Some (count, k).
Proof.
  intros Hg Hkm Hd Hbits Hv Hkey.
  eexists _, _. split; [by apply (item_show_run gi ki attr g km)|].
  assert (simple_strtoul BITS_PER_LONG (sprintf_d_nl (attr_value attr km)) =
          (attr_value attr km, newline)) as Hparse.
  { apply simple_strtoul_sprintf_d; [|done].
    assert (2 ^ 31 <= 2 ^ BITS_PER_LONG) by (apply Z.pow_le_mono_r; lia).
    unfold INT_MAX in Hv. lia. }
  rewrite (item_store_stores _ _ gi ki attr _ count g km d);
    rewrite ?Hparse; cbn [fst snd]; try done;
    [|lia|intros E; destruct (Hkey E) as [Hlt _]; by subst attr].
  rewrite set_attr_attr_value. do 2 f_equal.
  destruct (decide (attr = item_keycode)) as [->|Hne].
  - destruct (Hkey eq_refl) as [_ Hbit]. cbn [attr_value] in *.
    rewrite setbit_same by (done || lia).
    rewrite (put_keybit_id (input g) d k Hd).
    exact (put_keymap_id gi ki g km k Hg Hkm).
  - destruct attr; [| | |done]; exact (put_keymap_id gi ki g km k Hg Hkm).
Qed.

(** ** The paths of [make_remote] *)

(** X1.  When [kzalloc] fails, or when [input_allocate_device] fails after
    it, [make_remote] returns [ERR_PTR(-ENOMEM)] and the state is exactly the
    one before the call: nothing stays allocated and nothing is registered. *)
Theorem make_remote_out_of_memory (BITS_PER_LONG : Z) (name : string)
    (inp : option nat) (r : Z) (k : kernel) :
  make_remote BITS_PER_LONG name (HostEnv false inp r) k =
    Some (ERR_PTR (- ENOMEM), k) ∧
  make_remote BITS_PER_LONG name (HostEnv true None r) k =
    Some (ERR_PTR (- ENOMEM), k).
Proof.
  split; [done|].
  unfold make_remote, kzalloc, input_allocate_device, kfree, bind, modify, ret.
  cbn. do 2 f_equal. destruct k as [ch devs reg mem ev lg].
  unfold with_kmem. cbn. f_equal. lia.
Qed.

(** X2.  When both allocations and the registration succeed, [make_remote]
    returns a remote of the given name without keymaps.  Its input device
    is on the virtual bus, carries the name of the remote and the location
    "remotes", announces key events, has an empty key bitmap and is
    registered.  One object more is allocated, every other device is as
    before, no event is reported, and the list of remotes of the registry is
    not touched: linking the remote is left to the caller. *)
Theorem make_remote_success (BITS_PER_LONG : Z) (name : string) (h : nat)
    (k : kernel) :
  ∃ k',
    make_remote BITS_PER_LONG name (HostEnv true (Some h) 0) k =
      Some (PTR (Remote name h []), k') ∧
    input_devs k' !! h =
      Some (InputDev BUS_VIRTUAL name "remotes" (BIT_MASK BITS_PER_LONG EV_KEY) 0) ∧
    (∀ h', h' ≠ h → input_devs k' !! h' = input_devs k !! h') ∧
    registered k' = {[h]} ∪ registered k ∧
    kmem k' = kmem k + 1 ∧
    su_children k' = su_children k ∧
    events k' = events k.
Proof.
  eexists. split.
  - unfold make_remote, kzalloc, input_allocate_device, input_register_device,
      write_input, bind, modify, ret.
    cbn. rewrite lookup_insert_eq. reflexivity.
  - cbn. split_and!; try done.
    + apply lookup_insert_eq.
    + intros h' Hne. by rewrite !lookup_insert_ne.
Qed.

(** ** The order of the key events *)

Lemma flat_map_two {A B : Type} (f : A → list B) (l : list A) (i j : nat)
    (x y : A) :
  l !! i = Some x → l !! j = Some y → (i < j)%nat →
  ∃ a b c, flat_map f l = a ++ f x ++ b ++ f y ++ c.
Proof.
  intros Hi Hj Hlt.
  assert (drop (Datatypes.S i) l !! (j - Datatypes.S i)%nat = Some y) as Hj'.
  { rewrite lookup_drop. rewrite <- Hj. f_equal. lia. }
  rewrite <- (take_drop_middle _ _ _ Hi).
  rewrite <- (take_drop_middle _ _ _ Hj').
  rewrite flat_map_app. cbn [flat_map]. rewrite flat_map_app. cbn [flat_map].
  by eexists _, _, _.
Qed.

(** X12.  The scan reports in list order, the order in which the remotes
    and the keymaps were created: of two matching keymaps, the one that
    comes first, in an earlier remote or earlier in the same remote, has
    its key-down and sync reported first. *)
Theorem input_ir_translate_in_list_order (dev : nat)
    (protocol' device' command' : Z) (gi ki gj kj : nat)
    (g g' : remote) (km km' : keymap) (k : kernel) :
  su_children k !! gi = Some g → cg_children g !! ki = Some km →
  su_children k !! gj = Some g' → cg_children g' !! kj = Some km' →
  tuple_matches protocol' device' command' km = true →
  tuple_matches protocol' device' command' km' = true →
  (gi < gj)%nat ∨ (gi = gj ∧ (ki < kj)%nat) →
  ∃ pre mid post,
    input_ir_translate dev protocol' device' command' k =
    Some (tt, with_events
      (events k ++ pre ++
       [EvKey (input g) (keycode km) 1; EvSync (input g)] ++ mid ++
       [EvKey (input g') (keycode km') 1; EvSync (input g')] ++ post) k).
Proof.
  intros Hg Hkm Hg' Hkm' Hm Hm' Horder. rewrite translate_run.
  assert (∃ a b c, scan_events protocol' device' command' (su_children k) =
            a ++ [EvKey (input g) (keycode km) 1; EvSync (input g)] ++ b ++
            [EvKey (input g') (keycode km') 1; EvSync (input g')] ++ c)
    as (a & b & c & E).
  { destruct Horder as [Hlt|[-> Hlt]].
    - destruct (flat_map_two (key_events protocol' device' command')
                  _ gi gj g g' Hg Hg' Hlt) as (a & b & c & E).
      destruct (key_events_fires _ _ _ g ki km Hkm Hm) as (p1 & q1 & E1).
      destruct (key_events_fires _ _ _ g' kj km' Hkm' Hm') as (p2 & q2 & E2).
      unfold scan_events. rewrite E, E1, E2.
      exists (a ++ p1), (q1 ++ b ++ p2), (q2 ++ c).
      by rewrite <- !app_assoc.
    - rewrite Hg in Hg'. injection Hg' as <-.
      destruct (flat_map_two (λ km0,
                  if tuple_matches protocol' device' command' km0
                  then [EvKey (input g) (keycode km0) 1; EvSync (input g)]
                  else []) _ ki kj km km' Hkm Hkm' Hlt) as (a & b & c & E).
      rewrite Hm, Hm' in E.
      unfold scan_events.
      rewrite <- (take_drop_middle _ _ _ Hg), flat_map_app. cbn [flat_map].
      unfold key_events at 2. rewrite E.
      exists (flat_map (key_events protocol' device' command')
                (take gj (su_children k)) ++ a), b,
        (c ++ flat_map (key_events protocol' device' command')
                (drop (Datatypes.S gj) (su_children k))).
      by rewrite <- !app_assoc. }
  rewrite E.
  exists (ir_events dev protocol' device' command' ++ [EvMutexLock] ++ a), b,
    (c ++ [EvMutexUnlock]).
  by rewrite <- !app_assoc.
Qed.

(** * The further properties on concrete registries *)

Lemma tv_remote_reachable :
  rtc (ir_step key_max bits_per_long) kernel_init tv_remote.
Proof.
  eapply rtc_l.
  { eapply (step_create_group _ _ "tv" (host_ok 5)). vm_compute. reflexivity. }
  eapply rtc_l.
  { eapply (step_create_entry _ _ 0 "power" true). vm_compute. reflexivity. }
  eapply rtc_l.
  { eapply (step_item_store _ _ 0 0 item_protocol "1" 1).
    vm_compute. reflexivity. }
  eapply rtc_l.
  { eapply (step_item_store _ _ 0 0 item_device "2" 1).
    vm_compute. reflexivity. }
  eapply rtc_l.
  { eapply (step_item_store _ _ 0 0 item_command "3" 1).
    vm_compute. reflexivity. }
  eapply rtc_l.
  { eapply (step_item_store _ _ 0 0 item_keycode "30" 2).
    vm_compute. reflexivity. }
  vm_compute. apply rtc_refl.
Qed.

Lemma tv_remote_removal :
  rtc (ir_step key_max bits_per_long) tv_remote tv_removed.
Proof.
  apply rtc_once. eapply (step_remove_group _ _ 0). by vm_compute.
Qed.

Lemma tv_remote_in_range : registry_in_range key_max tv_remote.
Proof.
  intros g km Hg Hkm. cbn in Hg.
  apply elem_of_cons in Hg as [->|Hg]; [|by apply elem_of_nil in Hg].
  apply elem_of_cons in Hkm as [->|Hkm]; [|by apply elem_of_nil in Hkm].
  unfold keymap_in_range. cbn. split_and!; try done. by right.
Qed.

Lemma reachable_registry_in_range_witness : registry_in_range key_max tv_remote.
Proof.
  apply (reachable_registry_in_range key_max bits_per_long tv_remote).
  exact tv_remote_reachable.
Defined.

Lemma reachable_caps_in_range_witness : caps_in_range key_max tv_remote.
Proof.
  apply (reachable_caps_in_range key_max bits_per_long tv_remote).
  exact tv_remote_reachable.
Defined.

Lemma registrations_only_grow_witness :
  registered tv_remote ⊆ registered tv_removed.
Proof.
  apply (registrations_only_grow key_max bits_per_long tv_remote tv_removed).
  exact tv_remote_removal.
Defined.

Lemma item_store_frame_witness :
  ∃ km',
    get_keymap
      (put_keymap 0 0 (Remote "tv" 5 [Keymap "power" 1 2 3 30])
         (Keymap "power" 7 2 3 30) tv_remote) 0 0 = Some km' ∧
    item_name km' = "power"%string ∧
    ∀ attr', attr' ≠ item_protocol →
      attr_value attr' km' = attr_value attr' (Keymap "power" 1 2 3 30).
Proof.
  destruct (item_store_frame key_max bits_per_long 0 0 item_protocol "7" 1 1
              tv_remote
              (put_keymap 0 0 (Remote "tv" 5 [Keymap "power" 1 2 3 30])
                 (Keymap "power" 7 2 3 30) tv_remote))
    as (_ & Hsame & _); [by vm_compute|].
  apply (Hsame (Keymap "power" 1 2 3 30)). reflexivity.
Defined.

Lemma item_store_key_bits_witness :
  ∃ d',
    input_devs
      (put_keymap 0 0 (Remote "tv" 5 [Keymap "power" 1 2 3 30])
         (Keymap "power" 1 2 3 31)
         (put_keybit 5 (InputDev BUS_VIRTUAL "tv" "remotes" 2 (Z.setbit 0 30))
            (Z.setbit (Z.setbit 0 30) 31) tv_remote)) !! 5%nat = Some d' ∧
    (∀ n, Z.testbit (Z.setbit 0 30) n = true → Z.testbit (keybit d') n = true) ∧
    (∀ n, Z.testbit (keybit d') n = true →
       Z.testbit (Z.setbit 0 30) n = true ∨
       (item_keycode = item_keycode ∧ n = 31 ∧ 0 <= 31 < key_max ∧
        input <$> su_children tv_remote !! 0%nat = Some 5%nat)).
Proof.
  destruct (item_store_key_bits key_max bits_per_long 0 0 item_keycode "31" 2 2
              tv_remote
              (put_keymap 0 0 (Remote "tv" 5 [Keymap "power" 1 2 3 30])
                 (Keymap "power" 1 2 3 31)
                 (put_keybit 5
                    (InputDev BUS_VIRTUAL "tv" "remotes" 2 (Z.setbit 0 30))
                    (Z.setbit (Z.setbit 0 30) 31) tv_remote)))
    as (_ & Hbits); [by vm_compute|].
  apply (Hbits 5%nat (InputDev BUS_VIRTUAL "tv" "remotes" 2 (Z.setbit 0 30))).
  reflexivity.
Defined.

Lemma input_ir_translate_key_events_witness :
  ∃ emitted,
    input_ir_translate 9 1 2 3 tv_remote =
      Some (tt, with_events (events tv_remote ++ emitted) tv_remote) ∧
    ∀ h c v, EvKey h c v ∈ emitted → v = 1 ∧ 0 <= c < key_max.
Proof.
  destruct (input_ir_translate_key_events key_max 9 1 2 3 tv_remote)
    as (emitted & Hrun & Hkeys); [exact tv_remote_in_range|done|].
  exists emitted. split; [exact Hrun|].
  intros h c v Hin. destruct (Hkeys h c v Hin) as (Hv & Hc & _). by split.
Defined.

Lemma keycode_write_then_translate_witness :
  ∃ k1 pre post,
    item_store key_max bits_per_long 0 0 item_keycode "31" 2 tv_remote =
      Some (2, k1) ∧
    input_ir_translate 9 1 2 3 k1 =
      Some (tt, with_events
        (events k1 ++ pre ++ [EvKey 5 31 1; EvSync 5] ++ post) k1).
Proof.
  apply (keycode_write_then_translate key_max bits_per_long 0 0 "31" 2 9
           (Remote "tv" 5 [Keymap "power" 1 2 3 30]) (Keymap "power" 1 2 3 30)
           (InputDev BUS_VIRTUAL "tv" "remotes" 2 (Z.setbit 0 30)) tv_remote);
    [reflexivity|reflexivity|reflexivity|by left|done|done].
Defined.

Lemma item_show_then_store_witness :
  ∃ page len,
    item_show 0 0 item_keycode tv_remote = Some ((page, len), tv_remote) ∧
    item_store key_max bits_per_long 0 0 item_keycode page 3 tv_remote =
      Some (3, tv_remote).
Proof.
  apply (item_show_then_store key_max bits_per_long 0 0 item_keycode 3
           (Remote "tv" 5 [Keymap "power" 1 2 3 30]) (Keymap "power" 1 2 3 30)
           (InputDev BUS_VIRTUAL "tv" "remotes" 2 (Z.setbit 0 30)) tv_remote);
    [reflexivity|reflexivity|reflexivity|done|done|].
  intros _. split; [done|reflexivity].
Defined.

Lemma input_ir_translate_in_list_order_witness :
  ∃ pre mid post,
    input_ir_translate 9 1 2 3 two_remotes =
    Some (tt, with_events
      (events two_remotes ++ pre ++ [EvKey 1 30 1; EvSync 1] ++ mid ++
       [EvKey 2 31 1; EvSync 2] ++ post) two_remotes).
Proof.
  apply (input_ir_translate_in_list_order 9 1 2 3 0 0 1 0
           (Remote "G1" 1 [Keymap "k" 1 2 3 30])
           (Remote "G2" 2 [Keymap "k" 1 2 3 31])
           (Keymap "k" 1 2 3 30) (Keymap "k" 1 2 3 31) two_remotes);
    [reflexivity|reflexivity|reflexivity|reflexivity|reflexivity|reflexivity|].
  left. lia.
Defined.
